(** * Undirected graph with breadth-first search: a shallow embedding of [graph.py]

    The Python class [Graph] keeps two attributes, [adjacency_dict] (a
    [defaultdict(set)] from node ids to neighbour sets) and [all_nodes]
    (a list of node ids).  Every method is embedded as a computation in
    a small state-and-exception monad over the record of these two
    attributes. *)

From stdpp Require Import base gmap sets list strings.
From stdpp Require Import sorting.

#[local] Set Warnings "-clear-no-such-hyp".

Local Open Scope Z_scope.

(** ** Python values *)

(** A Python [dict] remembers the insertion order of its keys: it is a
    finite map together with the list of its keys in order of first
    insertion. *)
Record dict := Dict {
  items : gmap Z (gset Z);
  keys : list Z
}.

Definition dict_empty : dict := Dict ∅ [].

(** [k in d] *)
Definition dict_contains (k : Z) (d : dict) : bool :=
  bool_decide (is_Some (items d !! k)).

(** [d[k]] on a [defaultdict(set)]: a missing key is inserted with a
    fresh empty set, which is returned. *)
Definition dict_getitem (k : Z) (d : dict) : gset Z * dict :=
  match items d !! k with
  | Some s => (s, d)
  | None => (∅, Dict (<[k := ∅]> (items d)) (keys d ++ [k]))
  end.

(** [d[k] = v] *)
Definition dict_setitem (k : Z) (v : gset Z) (d : dict) : dict :=
  Dict (<[k := v]> (items d))
       (if dict_contains k d then keys d else keys d ++ [k]).

(** [d[k].add(x)]: the set stored under [k] is updated in place. *)
Definition dict_add (k x : Z) (d : dict) : dict :=
  let '(s, d') := dict_getitem k d in
  Dict (<[k := s ∪ {[x]}]> (items d')) (keys d').

(** [d1 == d2]: same keys, equal values; the key order plays no part. *)
Definition dict_eqb (d1 d2 : dict) : bool :=
  bool_decide (items d1 = items d2).

(** The attributes of a [Graph] object. *)
Record Graph := MkGraph {
  adjacency_dict : dict;
  all_nodes : list Z
}.

Inductive exn :=
| ValueError (msg : string)
| IndexError (msg : string)
| StopIteration.

(** How a call ends: it returns, it raises, or the loop budget of the
    model ran out before the call ended. *)
Inductive outcome (A : Type) :=
| Ret (a : A)
| Raise (e : exn)
| OutOfFuel.
Arguments Ret {A} a.
Arguments Raise {A} e.
Arguments OutOfFuel {A}.

(** ** Methods as computations on [self] *)

Definition M (A : Type) : Type := Graph → outcome A * Graph.

Definition ret {A} (a : A) : M A := λ g, (Ret a, g).

Definition bind {A B} (m : M A) (k : A → M B) : M B :=
  λ g, match m g with
       | (Ret a, g') => k a g'
       | (Raise e, g') => (Raise e, g')
       | (OutOfFuel, g') => (OutOfFuel, g')
       end.

Definition raise {A} (e : exn) : M A := λ g, (Raise e, g).
Definition out_of_fuel {A} : M A := λ g, (OutOfFuel, g).

Declare Scope py_scope.
Delimit Scope py_scope with py.
Notation "x <- m ;; k" := (bind m (λ x, k))
  (at level 100, m at next level, right associativity) : py_scope.
Notation "m ;; k" := (bind m (λ _, k))
  (at level 100, right associativity) : py_scope.
Local Open Scope py_scope.

(** The state a call leaves behind, and what it hands back. *)
Definition exec {A} (m : M A) (g : Graph) : Graph := (m g).2.
Definition result {A} (m : M A) (g : Graph) : outcome A := (m g).1.

(** [for x in xs: body x] *)
Fixpoint for_each {A} (xs : list A) (body : A → M unit) : M unit :=
  match xs with
  | [] => ret tt
  | x :: xs' => body x ;; for_each xs' body
  end.

(** Reads and writes of the two attributes. *)
Definition get_adjacency : M dict := λ g, (Ret (adjacency_dict g), g).
Definition set_adjacency (d : dict) : M unit :=
  λ g, (Ret tt, MkGraph d (all_nodes g)).
Definition get_all_nodes : M (list Z) := λ g, (Ret (all_nodes g), g).
Definition set_all_nodes (l : list Z) : M unit :=
  λ g, (Ret tt, MkGraph (adjacency_dict g) l).

(** [self.adjacency_dict[k]] *)
Definition adjacency_getitem (k : Z) : M (gset Z) :=
  d <- get_adjacency ;;
  let '(s, d') := dict_getitem k d in
  set_adjacency d' ;; ret s.

(** [self.adjacency_dict[k].add(x)] *)
Definition adjacency_add (k x : Z) : M unit :=
  d <- get_adjacency ;; set_adjacency (dict_add k x d).

(** [__contains__] *)
Definition __contains__ (node : Z) : M bool :=
  d <- get_adjacency ;; ret (dict_contains node d).

(** [update_all_nodes] *)
Definition update_all_nodes : M unit :=
  d <- get_adjacency ;; set_all_nodes (keys d).

(** [is_edge_in_graph]; [and] evaluates its right operand only when the
    left one is true. *)
Definition is_edge_in_graph (edge : Z * Z) : M bool :=
  d <- get_adjacency ;;
  if dict_contains edge.1 d then
    s <- adjacency_getitem edge.1 ;;
    ret (bool_decide (edge.2 ∈ s))
  else ret false.

(** [add_edge] *)
Definition add_edge (edge : Z * Z) : M unit :=
  present <- is_edge_in_graph edge ;;
  if present then ret tt
  else
    adjacency_add edge.1 edge.2 ;;
    adjacency_add edge.2 edge.1 ;;
    update_all_nodes.

(** [add_node] *)
Definition add_node (new_node : Z) : M unit :=
  present <- __contains__ new_node ;;
  if present then ret tt
  else
    d <- get_adjacency ;;
    set_adjacency (dict_setitem new_node ∅ d) ;;
    update_all_nodes.

(** [__init__]; [not edges] holds of the empty list. *)
Definition __init__ (edges : list (Z * Z)) : M unit :=
  set_adjacency dict_empty ;;
  set_all_nodes [] ;;
  match edges with
  | [] => ret tt
  | _ => for_each edges add_edge ;; update_all_nodes
  end.

(** The new object before [__init__] has filled it. *)
Definition empty_graph : Graph := MkGraph dict_empty [].

(** [Graph(edges)]: [__init__] run on a new object. *)
Definition Construct (edges : list (Z * Z)) : Graph :=
  exec (__init__ edges) empty_graph.

(** [__getitem__]: a copy of the neighbour set. *)
Definition __getitem__ (node : Z) : M (gset Z) :=
  present <- __contains__ node ;;
  if negb present then raise (ValueError "Node not in graph!")
  else adjacency_getitem node.

(** [__iter__] returns [self]: the graph is its own iterator, and there
    is no iteration state besides the attributes. *)
Definition __iter__ : M unit := ret tt.

(** [__next__] *)
Definition __next__ : M Z :=
  l <- get_all_nodes ;;
  match l with
  | node :: rest => set_all_nodes rest ;; ret node
  | [] => raise StopIteration
  end.

(** [__eq__] *)
Definition __eq__ (other : Graph) : M bool :=
  d <- get_adjacency ;; ret (dict_eqb d (adjacency_dict other)).

(** ** Breadth-first search *)

(** The local variables of [bfs]; [cur_distance] is the local variable
    [distance], renamed apart from the method of that name. *)
Record frame := Frame {
  distance_pairs : list (Z * Z);
  cur_distance : Z;
  queue : list Z;
  seen_nodes : gset Z
}.

(** The body of the innermost loop, for one neighbour. *)
Definition visit (f : frame) (current_node_neighbor : Z) : frame :=
  if decide (current_node_neighbor ∈ seen_nodes f) then f
  else Frame (distance_pairs f ++ [(current_node_neighbor, cur_distance f)])
             (cur_distance f)
             (queue f ++ [current_node_neighbor])
             (seen_nodes f ∪ {[current_node_neighbor]}).

(** [[pair for pair in pairs if pair[0] == node]] *)
Definition pairs_of (node : Z) (pairs : list (Z * Z)) : list (Z * Z) :=
  filter (λ p, p.1 = node) pairs.

Section Traversal.

(** The order in which Python enumerates a set is not specified; the
    traversal is written over an arbitrary enumeration. *)
Variable set_iter : gset Z → list Z.

(** [for _ in range(n)]: pop a node, scan its neighbours. *)
Fixpoint bfs_for (n : nat) (f : frame) : M frame :=
  match n with
  | O => ret f
  | S n' =>
      match queue f with
      | [] => raise (IndexError "pop from an empty deque")
      | current_node :: rest =>
          neighbors <- adjacency_getitem current_node ;;
          bfs_for n'
            (fold_left visit (set_iter neighbors)
               (Frame (distance_pairs f) (cur_distance f) rest (seen_nodes f)))
      end
  end.

(** [while queue:]; each turn of the loop uses one unit of [fuel]. *)
Fixpoint bfs_while (fuel : nat) (f : frame) : M frame :=
  match queue f with
  | [] => ret f
  | _ :: _ =>
      match fuel with
      | O => out_of_fuel
      | S fuel' =>
          let f1 := Frame (distance_pairs f) (cur_distance f + 1)
                          (queue f) (seen_nodes f) in
          f2 <- bfs_for (length (queue f1)) f1 ;;
          bfs_while fuel' f2
      end
  end.

(** [bfs] *)
Definition bfs (fuel : nat) (start_node : Z) : M (list (Z * Z)) :=
  present <- __contains__ start_node ;;
  if negb present then raise (ValueError "Node not in graph!")
  else
    f <- bfs_while fuel (Frame [] 0 [start_node] {[start_node]}) ;;
    nodes <- get_all_nodes ;;
    ret (distance_pairs f ++
         map (λ node, (node, -1))
             (filter (λ node, node ∉ seen_nodes f) nodes)).

(** [distance]; [or] evaluates its right operand only when the left one
    is false. *)
Definition distance (fuel : nat) (node1 node2 : Z) : M Z :=
  present1 <- __contains__ node1 ;;
  absent <- (if negb present1 then ret true
             else present2 <- __contains__ node2 ;; ret (negb present2)) ;;
  if (absent : bool) then raise (ValueError "Node(s) not in graph!")
  else if decide (node1 = node2) then ret 0
  else
    pairs <- bfs fuel node1 ;;
    match pairs_of node2 pairs with
    | [] => raise (IndexError "list index out of range")
    | found :: _ => ret found.2
    end.

End Traversal.

(** Iterating the graph: [for node in graph] calls [__iter__] once and
    then [__next__] until it raises [StopIteration]; the nodes handed
    out are collected in order. *)
Fixpoint next_until_stop (fuel : nat) : M (list Z) :=
  match fuel with
  | O => out_of_fuel
  | S fuel' =>
      λ g, match __next__ g with
           | (Ret node, g') =>
               (rest <- next_until_stop fuel' ;; ret (node :: rest)) g'
           | (Raise StopIteration, g') => (Ret [], g')
           | (Raise e, g') => (Raise e, g')
           | (OutOfFuel, g') => (OutOfFuel, g')
           end
  end.

Definition iterate (fuel : nat) : M (list Z) :=
  __iter__ ;; next_until_stop fuel.

(** A sequence of calls that change the graph. *)
Inductive mutation :=
| AddEdge (edge : Z * Z)
| AddNode (node : Z).

Definition apply_mutation (m : mutation) : M unit :=
  match m with
  | AddEdge edge => add_edge edge
  | AddNode node => add_node node
  end.

(** A call of any public method, and the state it leaves. *)
Inductive call :=
| Call_add_edge (edge : Z * Z)
| Call_add_node (node : Z)
| Call_next
| Call_contains (node : Z)
| Call_is_edge_in_graph (edge : Z * Z)
| Call_getitem (node : Z)
| Call_bfs (fuel : nat) (start_node : Z)
| Call_distance (fuel : nat) (node1 node2 : Z)
| Call_eq (other : Graph).

Definition after_call (set_iter : gset Z → list Z) (c : call) (g : Graph) : Graph :=
  match c with
  | Call_add_edge edge => exec (add_edge edge) g
  | Call_add_node node => exec (add_node node) g
  | Call_next => exec __next__ g
  | Call_contains node => exec (__contains__ node) g
  | Call_is_edge_in_graph edge => exec (is_edge_in_graph edge) g
  | Call_getitem node => exec (__getitem__ node) g
  | Call_bfs fuel start_node => exec (bfs set_iter fuel start_node) g
  | Call_distance fuel node1 node2 => exec (distance set_iter fuel node1 node2) g
  | Call_eq other => exec (__eq__ other) g
  end.

Definition after_calls (set_iter : gset Z → list Z) (cs : list call) (g : Graph) : Graph :=
  foldl (λ g' c, after_call set_iter c g') g cs.

(** ** The helper of the test suite *)

(** What can end a test method early: a failed assertion, a [KeyError]
    from [del] or [remove], or an exception of a [Graph] method. *)
Inductive test_exn :=
| AssertionError
| KeyError
| Propagated (e : exn).

Inductive verdict (A : Type) :=
| Done (a : A)
| Failed (e : test_exn)
| Unfinished.
Arguments Done {A} a.
Arguments Failed {A} e.
Arguments Unfinished {A}.

(** A test step acts on [self.graph]. *)
Definition T (A : Type) : Type := Graph → verdict A * Graph.

Definition tret {A} (a : A) : T A := λ g, (Done a, g).

Definition tbind {A B} (m : T A) (k : A → T B) : T B :=
  λ g, match m g with
       | (Done a, g') => k a g'
       | (Failed e, g') => (Failed e, g')
       | (Unfinished, g') => (Unfinished, g')
       end.

Definition tfail {A} (e : test_exn) : T A := λ g, (Failed e, g).

(** A method called on [self.graph]. *)
Definition on_graph {A} (m : M A) : T A :=
  λ g, match m g with
       | (Ret a, g') => (Done a, g')
       | (Raise e, g') => (Failed (Propagated e), g')
       | (OutOfFuel, g') => (Unfinished, g')
       end.

(** A method called on another graph, which no test step changes
    afterwards: only what it returns is used. *)
Definition on_other {A} (other : Graph) (m : M A) : T A :=
  λ g, match m other with
       | (Ret a, _) => (Done a, g)
       | (Raise e, _) => (Failed (Propagated e), g)
       | (OutOfFuel, _) => (Unfinished, g)
       end.

Declare Scope test_scope.
Delimit Scope test_scope with test.
Notation "x <~ m ;; k" := (tbind m (λ x, k))
  (at level 100, m at next level, right associativity) : test_scope.
Notation "m ~;; k" := (tbind m (λ _, k))
  (at level 100, right associativity) : test_scope.

(** [assertIn], [assertEqual]: the check itself is computed by the
    caller. *)
Definition assertTrue (b : bool) : T unit :=
  if b then tret tt else tfail AssertionError.

(** [del d[k]] *)
Definition dict_delitem (k : Z) (d : dict) : option dict :=
  if dict_contains k d
  then Some (Dict (delete k (items d)) (filter (λ k', k' ≠ k) (keys d)))
  else None.

(** [del self.graph.adjacency_dict[k]] *)
Definition adjacency_delitem (k : Z) : T unit :=
  λ g, match dict_delitem k (adjacency_dict g) with
       | Some d' => (Done tt, MkGraph d' (all_nodes g))
       | None => (Failed KeyError, g)
       end.

(** [self.graph.adjacency_dict[k].remove(x)] *)
Definition adjacency_remove (k x : Z) : T unit :=
  (s <~ on_graph (adjacency_getitem k) ;;
   if decide (x ∈ s)
   then on_graph (d <- get_adjacency ;;
                  set_adjacency (Dict (<[k := s ∖ {[x]}]> (items d)) (keys d)))
   else tfail KeyError)%test.

(** [for x in xs: body x] *)
Fixpoint tfor_each {A} (xs : list A) (body : A → T unit) : T unit :=
  match xs with
  | [] => tret tt
  | x :: xs' => (body x ~;; tfor_each xs' body)%test
  end.

(** [edge[i]] for [i] 0 or 1 *)
Definition edge_item (edge : Z * Z) (i : nat) : Z :=
  match i with O => edge.1 | _ => edge.2 end.

(** The current [self.graph], to hand it to a method of another
    graph. *)
Definition this_graph : T Graph := λ g, (Done g, g).

(** The body of the loop of [add_edge_helper], for one endpoint. *)
Definition check_and_undo (new_edge : Z * Z) (original_graph : Graph)
    (index_node : nat * Z) : T unit :=
  (let '(index, node) := index_node in
   let pair_node_index := match index with O => 1%nat | _ => O end in
   let pair_node := edge_item new_edge pair_node_index in
   d <~ on_graph get_adjacency ;;
   assertTrue (dict_contains node d) ~;;
   s <~ on_graph (adjacency_getitem node) ;;
   assertTrue (bool_decide (pair_node ∈ s)) ~;;
   present <~ on_other original_graph (__contains__ node) ;;
   if negb present then adjacency_delitem node
   else adjacency_remove node (edge_item new_edge pair_node_index))%test.

(** [add_edge_helper]; [assertEqual(a, b)] evaluates [a == b], here
    [original_graph.__eq__(self.graph)]. *)
Definition add_edge_helper (new_edge : Z * Z) (original_graph : Graph) : T unit :=
  (on_graph (add_edge new_edge) ~;;
   tfor_each (imap (λ index node, (index, node)) [new_edge.1; new_edge.2])
     (check_and_undo new_edge original_graph) ~;;
   current <~ this_graph ;;
   equal <~ on_other original_graph (__eq__ current) ;;
   assertTrue equal)%test.

(** ** Vocabulary of the specification *)

(** The nodes of the graph are the keys of the adjacency mapping. *)
Definition nodes (g : Graph) : gset Z := dom (items (adjacency_dict g)).

(** [b] is stored in the neighbour set of [a]. *)
Definition neighbor (g : Graph) (a b : Z) : Prop :=
  ∃ s, items (adjacency_dict g) !! a = Some s ∧ b ∈ s.

(** [b] is in what [Neighbors(a)] returns. *)
Definition in_Neighbors (g : Graph) (a b : Z) : Prop :=
  ∃ s, result (__getitem__ a) g = Ret s ∧ b ∈ s.

(** [walk g n a b]: there is a path of [n] edges from [a] to [b]. *)
Inductive walk (g : Graph) : nat → Z → Z → Prop :=
| walk_here a : walk g 0 a a
| walk_edge n a b c : neighbor g a b → walk g n b c → walk g (S n) a c.

Definition reachable (g : Graph) (a b : Z) : Prop := ∃ n, walk g n a b.

(** [n] is the length of a shortest path from [a] to [b]. *)
Definition shortest (g : Graph) (a b : Z) (n : nat) : Prop :=
  walk g n a b ∧ ∀ m, walk g m a b → (n ≤ m)%nat.

(** The invariants of the data model. *)
Definition symmetric (g : Graph) : Prop :=
  ∀ a b, neighbor g a b → neighbor g b a.

Definition nodes_listed (g : Graph) : Prop :=
  NoDup (all_nodes g) ∧ ∀ n, n ∈ all_nodes g ↔ n ∈ nodes g.

Definition graph_inv (g : Graph) : Prop := symmetric g ∧ nodes_listed g.

(** The key list of a dictionary names each key of its map once. *)
Definition dict_wf (d : dict) : Prop :=
  NoDup (keys d) ∧ ∀ k, k ∈ keys d ↔ k ∈ dom (items d).

(** The test made by [is_edge_in_graph], as a function of the state. *)
Definition neighborb (g : Graph) (a b : Z) : bool :=
  match items (adjacency_dict g) !! a with
  | Some s => bool_decide (b ∈ s)
  | None => false
  end.

(** The state [add_edge] builds when the edge is new. *)
Definition with_edge (edge : Z * Z) (g : Graph) : Graph :=
  let d := dict_add edge.2 edge.1 (dict_add edge.1 edge.2 (adjacency_dict g)) in
  MkGraph d (keys d).

(** The state [add_node] builds when the node is new. *)
Definition with_node (node : Z) (g : Graph) : Graph :=
  let d := dict_setitem node ∅ (adjacency_dict g) in
  MkGraph d (keys d).

(** The states the constructor and the two mutators keep to: the
    invariants of the data model, over a well-formed dictionary. *)
Definition well_formed (g : Graph) : Prop :=
  dict_wf (adjacency_dict g) ∧ graph_inv g.

(** What holds of the local variables of [bfs] each time the [while]
    test is reached, [k] turns of the loop after the start: the nodes
    seen are those within [k] edges of [start_node], the queue holds
    those at exactly [k] edges, and every seen node but [start_node] is
    paired with its distance. *)
Definition level_inv (g : Graph) (start_node : Z) (k : nat) (f : frame) : Prop :=
  cur_distance f = Z.of_nat k
  ∧ (∀ v, v ∈ seen_nodes f → ∃ j, (j ≤ k)%nat ∧ shortest g start_node v j)
  ∧ (∀ m v, (m ≤ k)%nat → walk g m start_node v → v ∈ seen_nodes f)
  ∧ NoDup (queue f)
  ∧ (∀ v, v ∈ queue f ↔ shortest g start_node v k)
  ∧ NoDup (distance_pairs f).*1
  ∧ (∀ v, v ∈ (distance_pairs f).*1 ↔ v ∈ seen_nodes f ∧ v ≠ start_node)
  ∧ (∀ v d, (v, d) ∈ distance_pairs f →
            ∃ j, d = Z.of_nat j ∧ shortest g start_node v j).

(** The graph of the test suite. *)
Definition figure1 : Graph :=
  Construct [(6, 4); (4, 3); (4, 5); (3, 2); (5, 2); (5, 1); (1, 2)].

(** What every state reached through the public methods satisfies:
    a well-formed dictionary, symmetric adjacency, and a node list that
    is a tail of the key list. *)
Definition api_inv (g : Graph) : Prop :=
  dict_wf (adjacency_dict g)
  ∧ symmetric g
  ∧ all_nodes g `suffix_of` keys (adjacency_dict g).

(** The endpoints of a list of edges, in the order they are written. *)
Definition endpoints (edges : list (Z * Z)) : list Z :=
  flat_map (λ edge, [edge.1; edge.2]) edges.

(** A list without its repetitions: each element stays where it first
    occurs. *)
Fixpoint first_seen (l : list Z) : list Z :=
  match l with
  | [] => []
  | x :: l' => x :: filter (λ y, y ≠ x) (first_seen l')
  end.

(** [l] with [k] put at its end unless [l] has it: what a dictionary
    does to its key list when [k] is looked up or stored. *)
Definition add_key (k : Z) (l : list Z) : list Z :=
  if decide (k ∈ l) then l else l ++ [k].

(** A graph whose node list a [__next__] call has shortened. *)
Definition consumed_graph : Graph := exec __next__ (Construct [(1, 2)]).

(** The calls that are not meant to change the graph: everything but
    [add_edge] and [add_node]. *)
Definition is_query (c : call) : bool :=
  match c with
  | Call_add_edge _ | Call_add_node _ => false
  | _ => true
  end.

(** The distances recorded so far by [bfs] are in ascending order and
    none exceeds the current one. *)
Definition levels_sorted (f : frame) : Prop :=
  StronglySorted Z.le (distance_pairs f).*2
  ∧ Forall (λ d, d ≤ cur_distance f) (distance_pairs f).*2.

(** ** The dictionary primitives *)

Lemma dict_contains_dom k d :
  dict_contains k d = bool_decide (k ∈ dom (items d)).
Proof.
  unfold dict_contains. apply bool_decide_ext. by rewrite elem_of_dom.
Qed.

Lemma dict_getitem_Some k d s :
  items d !! k = Some s → dict_getitem k d = (s, d).
Proof. unfold dict_getitem. by intros ->. Qed.

Lemma items_dict_add k x d :
  items (dict_add k x d)
  = <[k := default ∅ (items d !! k) ∪ {[x]}]> (items d).
Proof.
  unfold dict_add, dict_getitem.
  destruct (items d !! k) as [s|] eqn:E; simpl; [done|].
  by rewrite insert_insert_eq.
Qed.

Lemma keys_dict_add k x d :
  keys (dict_add k x d)
  = if decide (k ∈ dom (items d)) then keys d else keys d ++ [k].
Proof.
  unfold dict_add, dict_getitem.
  destruct (items d !! k) as [s|] eqn:E; simpl.
  - rewrite decide_True; [done|]. apply elem_of_dom; eauto.
  - rewrite decide_False; [done|]. by apply not_elem_of_dom.
Qed.

Lemma dict_add_wf k x d : dict_wf d → dict_wf (dict_add k x d).
Proof.
  intros [Hnd Hk]. unfold dict_wf.
  rewrite keys_dict_add, items_dict_add, dom_insert_L.
  case_decide as Hin.
  - split; [done|]. intros k'. rewrite Hk. set_solver.
  - split.
    + apply NoDup_app. split_and!; [done| |apply NoDup_singleton].
      intros k' Hk' ->%list_elem_of_singleton. apply Hin. by apply Hk.
    + intros k'. rewrite elem_of_app, list_elem_of_singleton, Hk. set_solver.
Qed.

Lemma dict_setitem_wf k v d : dict_wf d → dict_wf (dict_setitem k v d).
Proof.
  intros [Hnd Hk]. unfold dict_wf, dict_setitem. simpl.
  rewrite dict_contains_dom, dom_insert_L.
  case_bool_decide as Hin.
  - split; [done|]. intros k'. rewrite Hk. set_solver.
  - split.
    + apply NoDup_app. split_and!; [done| |apply NoDup_singleton].
      intros k' Hk' ->%list_elem_of_singleton. apply Hin. by apply Hk.
    + intros k'. rewrite elem_of_app, list_elem_of_singleton, Hk. set_solver.
Qed.

Lemma dict_empty_wf : dict_wf dict_empty.
Proof.
  split; [constructor|]. intros k. simpl. rewrite dom_empty_L. set_solver.
Qed.

(** ** What each method computes *)

Lemma neighborb_spec g a b : neighborb g a b = true ↔ neighbor g a b.
Proof.
  unfold neighborb, neighbor.
  destruct (items (adjacency_dict g) !! a) as [s|]; split.
  - intros H%bool_decide_eq_true. eauto.
  - intros (s' & [= <-] & H). by apply bool_decide_eq_true.
  - done.
  - by intros (s' & [=] & _).
Qed.

Lemma elem_of_nodes g n :
  n ∈ nodes g ↔ is_Some (items (adjacency_dict g) !! n).
Proof. apply elem_of_dom. Qed.

Lemma neighbor_node g a b : neighbor g a b → a ∈ nodes g.
Proof. intros (s & Hs & _). apply elem_of_dom. eauto. Qed.

Lemma contains_run node g :
  __contains__ node g = (Ret (bool_decide (node ∈ nodes g)), g).
Proof.
  unfold __contains__, bind, get_adjacency, ret. simpl.
  by rewrite dict_contains_dom.
Qed.

Lemma adjacency_getitem_present k s g :
  items (adjacency_dict g) !! k = Some s →
  adjacency_getitem k g = (Ret s, g).
Proof.
  intros Hs. unfold adjacency_getitem, bind, get_adjacency. simpl.
  rewrite (dict_getitem_Some _ _ _ Hs). by destruct g.
Qed.

Lemma is_edge_in_graph_run edge g :
  is_edge_in_graph edge g = (Ret (neighborb g edge.1 edge.2), g).
Proof.
  unfold is_edge_in_graph, bind, get_adjacency, neighborb. simpl.
  rewrite dict_contains_dom.
  destruct (items (adjacency_dict g) !! edge.1) as [s|] eqn:E.
  - rewrite bool_decide_eq_true_2 by (apply elem_of_dom; eauto).
    by rewrite (adjacency_getitem_present _ _ _ E).
  - by rewrite bool_decide_eq_false_2 by (by apply not_elem_of_dom).
Qed.

Lemma add_edge_run edge g :
  add_edge edge g
  = (Ret tt, if neighborb g edge.1 edge.2 then g else with_edge edge g).
Proof.
  unfold add_edge, bind. rewrite is_edge_in_graph_run.
  by destruct (neighborb g edge.1 edge.2).
Qed.

Lemma add_node_run node g :
  add_node node g
  = (Ret tt, if bool_decide (node ∈ nodes g) then g else with_node node g).
Proof.
  unfold add_node, bind. rewrite contains_run.
  by destruct (bool_decide (node ∈ nodes g)).
Qed.

Lemma getitem_run node g :
  __getitem__ node g
  = match items (adjacency_dict g) !! node with
    | Some s => (Ret s, g)
    | None => (Raise (ValueError "Node not in graph!"), g)
    end.
Proof.
  unfold __getitem__, bind. rewrite contains_run.
  destruct (items (adjacency_dict g) !! node) as [s|] eqn:E.
  - rewrite bool_decide_eq_true_2 by (apply elem_of_dom; eauto).
    simpl. by apply adjacency_getitem_present.
  - by rewrite bool_decide_eq_false_2 by (by apply not_elem_of_dom).
Qed.

Lemma in_Neighbors_neighbor g a b : in_Neighbors g a b ↔ neighbor g a b.
Proof.
  unfold in_Neighbors, neighbor, result. rewrite getitem_run.
  destruct (items (adjacency_dict g) !! a) as [s|]; simpl; split;
    intros (s' & Hs' & Hb); simplify_eq; eauto.
Qed.

Lemma apply_mutation_ret m g : result (apply_mutation m) g = Ret tt.
Proof.
  destruct m; unfold result; simpl;
    [by rewrite add_edge_run | by rewrite add_node_run].
Qed.

Lemma for_each_cons {A} (x : A) xs body g :
  result (body x) g = Ret tt →
  for_each (x :: xs) body g = for_each xs body (exec (body x) g).
Proof.
  unfold result, exec. simpl. unfold bind.
  destruct (body x g) as [[[]| |] g']; simpl; congruence.
Qed.

(** ** The neighbour relation after a change *)

Lemma with_edge_neighbor edge g a b :
  neighbor (with_edge edge g) a b
  ↔ neighbor g a b ∨ (a = edge.1 ∧ b = edge.2) ∨ (a = edge.2 ∧ b = edge.1).
Proof.
  destruct edge as [u v]. unfold neighbor, with_edge. simpl.
  rewrite !items_dict_add.
  destruct (decide (a = v)) as [->|Hav].
  - rewrite lookup_insert_eq. split.
    + intros (s & [= <-] & Hb). apply elem_of_union in Hb as [Hb| ->%elem_of_singleton]; [|by auto].
      destruct (decide (v = u)) as [->|Hvu].
      * rewrite lookup_insert_eq in Hb. simpl in Hb.
        apply elem_of_union in Hb as [Hb| ->%elem_of_singleton]; [|by auto].
        destruct (items (adjacency_dict g) !! u) eqn:E; [left; eauto|set_solver].
      * rewrite lookup_insert_ne in Hb by done.
        destruct (items (adjacency_dict g) !! v) eqn:E; [left; eauto|set_solver].
    + intros H. eexists; split; [done|].
      destruct (decide (v = u)) as [->|Hvu].
      * rewrite lookup_insert_eq. simpl.
        destruct H as [(s & -> & Hb)|[[_ ->]|[_ ->]]]; set_solver.
      * rewrite lookup_insert_ne by done.
        destruct H as [(s & -> & Hb)|[[? ->]|[_ ->]]]; set_solver.
  - rewrite lookup_insert_ne by done.
    destruct (decide (a = u)) as [->|Hau].
    + rewrite lookup_insert_eq. split.
      * intros (s & [= <-] & Hb). apply elem_of_union in Hb as [Hb| ->%elem_of_singleton]; [|by auto].
        destruct (items (adjacency_dict g) !! u) eqn:E; [left; eauto|set_solver].
      * intros H. eexists; split; [done|].
        destruct H as [(s & -> & Hb)|[[_ ->]|[? ->]]]; set_solver.
    + rewrite lookup_insert_ne by done. naive_solver.
Qed.

Lemma with_edge_nodes edge g :
  nodes (with_edge edge g) = nodes g ∪ {[edge.1; edge.2]}.
Proof.
  unfold nodes, with_edge. simpl. rewrite !items_dict_add, !dom_insert_L.
  set_solver.
Qed.

Lemma with_node_neighbor node g a b :
  node ∉ nodes g → neighbor (with_node node g) a b ↔ neighbor g a b.
Proof.
  unfold nodes. intros Hn%not_elem_of_dom.
  unfold neighbor, with_node, dict_setitem. simpl.
  destruct (decide (a = node)) as [->|Ha].
  - rewrite lookup_insert_eq, Hn. split; intros (s & [= <-] & Hb); set_solver.
  - by rewrite lookup_insert_ne.
Qed.

Lemma with_node_nodes node g : nodes (with_node node g) = nodes g ∪ {[node]}.
Proof.
  unfold nodes, with_node, dict_setitem. simpl. rewrite dom_insert_L.
  set_solver.
Qed.

(** ** The invariants are kept by construction and mutation *)

Lemma for_each_run {A} (body : A → M unit) xs g :
  (∀ x g', result (body x) g' = Ret tt) →
  for_each xs body g = (Ret tt, foldl (λ g' x, exec (body x) g') g xs).
Proof.
  intros Hret. revert g. induction xs as [|x xs IH]; intros g; [done|].
  rewrite for_each_cons by apply Hret. apply IH.
Qed.

Lemma exec_add_edge edge g :
  exec (add_edge edge) g
  = if neighborb g edge.1 edge.2 then g else with_edge edge g.
Proof. unfold exec. by rewrite add_edge_run. Qed.

Lemma exec_add_node node g :
  exec (add_node node) g
  = if bool_decide (node ∈ nodes g) then g else with_node node g.
Proof. unfold exec. by rewrite add_node_run. Qed.

Lemma Construct_run edges :
  Construct edges
  = exec update_all_nodes (foldl (λ g e, exec (add_edge e) g) empty_graph edges).
Proof.
  unfold Construct, __init__, exec, bind. simpl.
  destruct edges as [|e es]; [done|].
  fold empty_graph. rewrite for_each_run; [done|].
  intros x g'. unfold result. by rewrite add_edge_run.
Qed.

Lemma with_edge_well_formed edge g :
  well_formed g → well_formed (with_edge edge g).
Proof.
  intros (Hwf & Hsym & Hl).
  assert (dict_wf (adjacency_dict (with_edge edge g))) as Hwf'
    by (simpl; by do 2 apply dict_add_wf).
  split; [done|]. split; [|exact Hwf'].
  intros a b. rewrite !with_edge_neighbor. specialize (Hsym a b). tauto.
Qed.

Lemma with_node_well_formed node g :
  node ∉ nodes g → well_formed g → well_formed (with_node node g).
Proof.
  intros Hn (Hwf & Hsym & Hl).
  assert (dict_wf (adjacency_dict (with_node node g))) as Hwf'
    by (simpl; by apply dict_setitem_wf).
  split; [done|]. split; [|exact Hwf'].
  intros a b. rewrite !with_node_neighbor by done. apply Hsym.
Qed.

Lemma add_edge_well_formed edge g :
  well_formed g → well_formed (exec (add_edge edge) g).
Proof.
  intros H. rewrite exec_add_edge.
  destruct (neighborb g edge.1 edge.2); [done|by apply with_edge_well_formed].
Qed.

Lemma add_node_well_formed node g :
  well_formed g → well_formed (exec (add_node node) g).
Proof.
  intros H. rewrite exec_add_node.
  case_bool_decide; [done|by apply with_node_well_formed].
Qed.

Lemma empty_graph_well_formed : well_formed empty_graph.
Proof.
  split; [apply dict_empty_wf|]. split.
  - intros a b (s & Hs & _). simpl in Hs. by rewrite lookup_empty in Hs.
  - split; [constructor|]. intros n. unfold nodes. simpl.
    rewrite dom_empty_L. set_solver.
Qed.

Lemma foldl_preserves {A} (P : Graph → Prop) (f : Graph → A → Graph) xs g :
  (∀ g' x, P g' → P (f g' x)) → P g → P (foldl f g xs).
Proof.
  intros Hf. revert g. induction xs as [|x xs IH]; intros g Hg; [done|].
  simpl. apply IH, Hf, Hg.
Qed.

Lemma update_all_nodes_keeps g :
  well_formed g → well_formed (exec update_all_nodes g).
Proof.
  intros (Hwf & Hsym & Hl). split; [done|]. split; [done|]. exact Hwf.
Qed.

Lemma Construct_well_formed edges : well_formed (Construct edges).
Proof.
  rewrite Construct_run. apply update_all_nodes_keeps.
  apply (foldl_preserves well_formed); [|apply empty_graph_well_formed].
  intros g' e. apply add_edge_well_formed.
Qed.

Lemma mutations_run ms g :
  for_each ms apply_mutation g
  = (Ret tt, foldl (λ g' m, exec (apply_mutation m) g') g ms).
Proof. apply for_each_run. intros m g'. apply apply_mutation_ret. Qed.

Lemma mutations_well_formed ms g :
  well_formed g → well_formed (exec (for_each ms apply_mutation) g).
Proof.
  intros H. unfold exec at 1. rewrite mutations_run. simpl.
  apply (foldl_preserves well_formed); [|done].
  intros g' [e|n]; [apply add_edge_well_formed|apply add_node_well_formed].
Qed.

(** C5. After construction from any edge list followed by any sequence
    of [add_edge] and [add_node] calls, membership in neighbour sets is
    symmetric: [b] is in [Neighbors(a)] exactly when [a] is in
    [Neighbors(b)]. *)
Theorem symmetry_after_mutations (edges : list (Z * Z)) (ms : list mutation) (a b : Z) :
  let g := exec (for_each ms apply_mutation) (Construct edges) in
  in_Neighbors g a b ↔ in_Neighbors g b a.
Proof.
  intros g. rewrite !in_Neighbors_neighbor.
  destruct (mutations_well_formed ms (Construct edges)
              (Construct_well_formed edges)) as (_ & Hsym & _).
  split; apply Hsym.
Qed.

(** ** Construction puts every edge in *)

Lemma add_edge_neighbor_mono edge g a b :
  neighbor g a b → neighbor (exec (add_edge edge) g) a b.
Proof.
  intros H. rewrite exec_add_edge.
  destruct (neighborb g edge.1 edge.2); [done|].
  apply with_edge_neighbor. by left.
Qed.

Lemma add_edge_adds edge g :
  symmetric g →
  neighbor (exec (add_edge edge) g) edge.1 edge.2
  ∧ neighbor (exec (add_edge edge) g) edge.2 edge.1.
Proof.
  intros Hsym. rewrite exec_add_edge.
  destruct (neighborb g edge.1 edge.2) eqn:E.
  - apply neighborb_spec in E. split; [done|by apply Hsym].
  - rewrite !with_edge_neighbor. tauto.
Qed.

Lemma add_edge_symmetric edge g :
  symmetric g → symmetric (exec (add_edge edge) g).
Proof.
  intros Hsym. rewrite exec_add_edge.
  destruct (neighborb g edge.1 edge.2); [done|].
  intros a b. rewrite !with_edge_neighbor. specialize (Hsym a b). tauto.
Qed.

Lemma add_edges_neighbor_mono edges g a b :
  neighbor g a b →
  neighbor (foldl (λ g' e, exec (add_edge e) g') g edges) a b.
Proof.
  apply (foldl_preserves (λ g', neighbor g' a b)).
  intros g' e. apply add_edge_neighbor_mono.
Qed.

Lemma add_edges_adds edges g u v :
  symmetric g → (u, v) ∈ edges →
  let g' := foldl (λ g' e, exec (add_edge e) g') g edges in
  neighbor g' u v ∧ neighbor g' v u.
Proof.
  revert g. induction edges as [|e es IH]; intros g Hsym Hin; simpl.
  - by apply elem_of_nil in Hin.
  - apply elem_of_cons in Hin as [<-|Hin].
    + destruct (add_edge_adds (u, v) g Hsym) as [H1 H2].
      split; by apply add_edges_neighbor_mono.
    + apply IH; [by apply add_edge_symmetric|done].
Qed.

Lemma contains_true node g :
  node ∈ nodes g → result (__contains__ node) g = Ret true.
Proof.
  intros H. unfold result. rewrite contains_run. simpl.
  by rewrite bool_decide_eq_true_2.
Qed.

(** C9. For every edge list, the constructed graph contains both
    endpoints of every listed edge, and each endpoint is in the
    neighbour set of the other. *)
Theorem Construct_has_edges (edges : list (Z * Z)) (u v : Z) :
  (u, v) ∈ edges →
  let g := Construct edges in
  result (__contains__ u) g = Ret true
  ∧ result (__contains__ v) g = Ret true
  ∧ in_Neighbors g u v
  ∧ in_Neighbors g v u.
Proof.
  intros Hin g.
  assert (neighbor g u v ∧ neighbor g v u) as [Huv Hvu].
  { subst g. rewrite Construct_run.
    destruct (empty_graph_well_formed) as (_ & Hsym & _).
    apply (add_edges_adds edges empty_graph u v Hsym Hin). }
  split_and!.
  - eapply contains_true, neighbor_node, Huv.
  - eapply contains_true, neighbor_node, Hvu.
  - by apply in_Neighbors_neighbor.
  - by apply in_Neighbors_neighbor.
Qed.

Lemma Construct_has_edges_witness :
  (4, 3) ∈ [(6, 4); (4, 3)]
  ∧ (let g := Construct [(6, 4); (4, 3)] in
     result (__contains__ 4) g = Ret true
     ∧ result (__contains__ 3) g = Ret true
     ∧ in_Neighbors g 4 3
     ∧ in_Neighbors g 3 4).
Proof.
  assert ((4, 3) ∈ [(6, 4); (4, 3)]) as H
    by apply list_elem_of_further, list_elem_of_here.
  split; [exact H|].
  exact (Construct_has_edges [(6, 4); (4, 3)] 4 3 H).
Defined.

(** ** Adding twice *)

Lemma add_edge_twice edge g :
  exec (add_edge edge) (exec (add_edge edge) g) = exec (add_edge edge) g.
Proof.
  rewrite (exec_add_edge edge g).
  destruct (neighborb g edge.1 edge.2) eqn:E.
  - by rewrite exec_add_edge, E.
  - rewrite exec_add_edge.
    assert (neighborb (with_edge edge g) edge.1 edge.2 = true) as ->; [|done].
    apply neighborb_spec, with_edge_neighbor. tauto.
Qed.

Lemma add_node_twice node g :
  exec (add_node node) (exec (add_node node) g) = exec (add_node node) g.
Proof.
  rewrite (exec_add_node node g).
  case_bool_decide as E.
  - by rewrite exec_add_node, bool_decide_eq_true_2.
  - rewrite exec_add_node, bool_decide_eq_true_2; [done|].
    rewrite with_node_nodes. set_solver.
Qed.

Lemma eq_run other g :
  __eq__ other g
  = (Ret (bool_decide (items (adjacency_dict g)
                       = items (adjacency_dict other))), g).
Proof. done. Qed.

(** C8. Calling [add_edge] with the same edge twice in a row leaves the
    graph that one call leaves, and [__eq__] says so; the same holds
    of [add_node]. *)
Theorem add_twice_same (g : Graph) (edge : Z * Z) (node : Z) :
  (let once := exec (add_edge edge) g in
   let twice := exec (add_edge edge) once in
   twice = once ∧ result (__eq__ once) twice = Ret true)
  ∧ (let once := exec (add_node node) g in
     let twice := exec (add_node node) once in
     twice = once ∧ result (__eq__ once) twice = Ret true).
Proof.
  split; intros once twice; subst twice once.
  - rewrite add_edge_twice. split; [done|].
    unfold result. rewrite eq_run. simpl. by rewrite bool_decide_eq_true_2.
  - rewrite add_node_twice. split; [done|].
    unfold result. rewrite eq_run. simpl. by rewrite bool_decide_eq_true_2.
Qed.

(** ** Paths *)

Lemma walk_snoc g n a b c :
  walk g n a b → neighbor g b c → walk g (S n) a c.
Proof.
  induction 1 as [a|n a b' b Hab _ IH]; intros Hbc.
  - eapply walk_edge; [exact Hbc|constructor].
  - eapply walk_edge; [exact Hab|by apply IH].
Qed.

Lemma walk_unsnoc g n a c :
  walk g (S n) a c → ∃ b, walk g n a b ∧ neighbor g b c.
Proof.
  revert a. induction n as [|n IH]; intros a H.
  - inversion H as [|? ? b ? Hab Hbc]; subst.
    inversion Hbc; subst. exists a. split; [constructor|done].
  - inversion H as [|? ? b ? Hab Hbc]; subst.
    destruct (IH _ Hbc) as (b' & Hw & Hn).
    exists b'. split; [|done]. by eapply walk_edge.
Qed.

Lemma walk_zero g a b : walk g 0 a b → a = b.
Proof. by inversion 1. Qed.

Lemma walk_reverse g n a b : symmetric g → walk g n a b → walk g n b a.
Proof.
  intros Hsym. induction 1 as [a|n a b c Hab _ IH]; [constructor|].
  eapply walk_snoc; [exact IH|by apply Hsym].
Qed.

Lemma walk_nodes g n a b :
  symmetric g → a ∈ nodes g → walk g n a b → b ∈ nodes g.
Proof.
  intros Hsym Ha. induction 1 as [a|n a b c Hab _ IH]; [done|].
  apply IH. eapply neighbor_node, Hsym, Hab.
Qed.

Lemma shortest_unique g a b n m :
  shortest g a b n → shortest g a b m → n = m.
Proof.
  intros [Hn Hn'] [Hm Hm'].
  specialize (Hn' _ Hm). specialize (Hm' _ Hn). lia.
Qed.

Lemma shortest_reverse g a b n :
  symmetric g → shortest g a b n → shortest g b a n.
Proof.
  intros Hsym [Hw Hmin]. split; [by apply walk_reverse|].
  intros m Hm. by apply Hmin, walk_reverse.
Qed.

(** ** One round of the traversal *)

Lemma visit_all l f :
  let f' := fold_left visit l f in
  cur_distance f' = cur_distance f
  ∧ ∃ new,
      queue f' = queue f ++ new
      ∧ distance_pairs f'
        = distance_pairs f ++ map (λ v, (v, cur_distance f)) new
      ∧ seen_nodes f' = seen_nodes f ∪ list_to_set new
      ∧ NoDup new
      ∧ ∀ v, v ∈ new ↔ v ∈ l ∧ v ∉ seen_nodes f.
Proof.
  revert f. induction l as [|x l IH]; intros f; simpl.
  - split; [done|]. exists []. rewrite !app_nil_r. simpl.
    split_and!; [done|done|set_solver|constructor|set_solver].
  - destruct (IH (visit f x)) as (Hd & new & Hq & Hp & Hs & Hnd & Hin).
    unfold visit in *. destruct (decide (x ∈ seen_nodes f)) as [Hx|Hx].
    + split; [done|]. exists new. split_and!; try done.
      intros v. rewrite Hin. set_solver.
    + simpl in *. split; [done|]. exists (x :: new).
      split_and!.
      * by rewrite Hq, <- app_assoc.
      * by rewrite Hp, <- app_assoc.
      * rewrite Hs. set_solver.
      * constructor; [|done]. rewrite Hin. set_solver.
      * intros v. rewrite elem_of_cons, Hin. set_unfold.
        destruct (decide (v = x)); naive_solver.
Qed.

Section Rounds.

Variable set_iter : gset Z → list Z.
Hypothesis set_iter_perm : ∀ s, set_iter s ≡ₚ elements s.

Lemma elem_of_set_iter s v : v ∈ set_iter s ↔ v ∈ s.
Proof. by rewrite set_iter_perm, elem_of_elements. Qed.

Lemma bfs_for_run g q1 : ∀ q2 f,
  queue f = q1 ++ q2 →
  (∀ u, u ∈ q1 → u ∈ nodes g) →
  ∃ f', bfs_for set_iter (length q1) f g = (Ret f', g)
    ∧ cur_distance f' = cur_distance f
    ∧ ∃ new,
        queue f' = q2 ++ new
        ∧ distance_pairs f'
          = distance_pairs f ++ map (λ v, (v, cur_distance f)) new
        ∧ seen_nodes f' = seen_nodes f ∪ list_to_set new
        ∧ NoDup new
        ∧ ∀ v, v ∈ new
               ↔ (∃ u, u ∈ q1 ∧ neighbor g u v) ∧ v ∉ seen_nodes f.
Proof.
  induction q1 as [|u q1 IH]; intros q2 f Hq Hnodes; simpl.
  - exists f. split; [done|]. split; [done|]. exists [].
    rewrite !app_nil_r. simpl in *.
    split_and!; [done|done|set_solver|constructor|set_solver].
  - rewrite Hq. simpl. unfold bind at 1.
    assert (u ∈ nodes g) as [s Hs]%elem_of_nodes by (apply Hnodes; set_solver).
    rewrite (adjacency_getitem_present _ _ _ Hs).
    set (f0 := Frame (distance_pairs f) (cur_distance f) (q1 ++ q2)
                     (seen_nodes f)).
    destruct (visit_all (set_iter s) f0)
      as (Hd1 & new1 & Hq1 & Hp1 & Hs1 & Hnd1 & Hin1).
    set (f1 := fold_left visit (set_iter s) f0) in *. simpl in *.
    destruct (IH (q2 ++ new1) f1) as (f' & Hrun & Hd' & new2 & Hq' & Hp' & Hs' & Hnd' & Hin').
    { by rewrite Hq1, app_assoc. }
    { intros u' Hu'. apply Hnodes. set_solver. }
    exists f'. split; [done|]. split; [congruence|].
    exists (new1 ++ new2). split_and!.
    + by rewrite Hq', app_assoc.
    + by rewrite Hp', Hp1, Hd1, map_app, app_assoc.
    + rewrite Hs', Hs1. set_solver.
    + apply NoDup_app. split_and!; [done| |done].
      intros v Hv1 Hv2%Hin'. rewrite Hs1 in Hv2. set_solver.
    + intros v. rewrite elem_of_app, Hin1, Hin', Hs1, elem_of_set_iter.
      split.
      * intros [[Hv Hn]|[(u' & Hu' & Hn') Hn]].
        -- split; [|done]. exists u. split; [set_solver|]. by exists s.
        -- split; [|set_solver]. exists u'. split; [set_solver|done].
      * intros [(u' & Hu' & Hn') Hn].
        destruct (decide (v ∈ s)) as [Hv|Hv]; [by left|]. right.
        apply elem_of_cons in Hu' as [->|Hu'].
        -- destruct Hn' as (s' & Hs'' & Hv'). congruence.
        -- split; [by exists u'|]. rewrite not_elem_of_union.
           split; [done|]. rewrite elem_of_list_to_set, Hin1.
           rewrite elem_of_set_iter. tauto.
Qed.

End Rounds.

(** ** The loop of the traversal, level by level *)

Lemma level_inv_start g start_node :
  level_inv g start_node 0 (Frame [] 0 [start_node] {[start_node]}).
Proof.
  unfold level_inv. simpl. split_and!.
  - done.
  - intros v ->%elem_of_singleton. exists 0%nat. split; [done|].
    split; [constructor|lia].
  - intros m v Hm Hw. assert (m = 0%nat) as -> by lia.
    apply walk_zero in Hw. set_solver.
  - apply NoDup_singleton.
  - intros v. rewrite list_elem_of_singleton. split.
    + intros ->. split; [constructor|lia].
    + intros [Hw _]. by apply walk_zero in Hw.
  - constructor.
  - intros v. set_solver.
  - intros v d H. by apply elem_of_nil in H.
Qed.

Lemma level_inv_seen_nodes g start_node k f v :
  symmetric g → start_node ∈ nodes g →
  level_inv g start_node k f → v ∈ seen_nodes f → v ∈ nodes g.
Proof.
  intros Hsym Hstart (_ & Hs1 & _) Hv. destruct (Hs1 v Hv) as (j & _ & Hw & _).
  by eapply walk_nodes.
Qed.

Lemma level_inv_final g start_node k f v m :
  level_inv g start_node k f → queue f = [] →
  walk g m start_node v → v ∈ seen_nodes f.
Proof.
  intros (Hd & Hs1 & Hs2 & Hqnd & Hq & _) Hempty. revert v.
  induction m as [|m IH]; intros v Hw.
  - apply (Hs2 0%nat); [lia|done].
  - destruct (walk_unsnoc _ _ _ _ Hw) as (u & Hu & Hn).
    destruct (Hs1 u (IH u Hu)) as (j & Hj & Hsh).
    destruct (decide (j = k)) as [->|Hne].
    + apply Hq in Hsh. rewrite Hempty in Hsh. by apply elem_of_nil in Hsh.
    + apply (Hs2 (S j)); [lia|]. eapply walk_snoc; [apply Hsh|done].
Qed.

Section Levels.

Variable set_iter : gset Z → list Z.
Hypothesis set_iter_perm : ∀ s, set_iter s ≡ₚ elements s.
Variable g : Graph.
Variable start_node : Z.
Hypothesis g_symmetric : symmetric g.
Hypothesis start_in : start_node ∈ nodes g.

Lemma level_step k f :
  level_inv g start_node k f →
  ∃ f',
    bfs_for set_iter (length (queue f))
      (Frame (distance_pairs f) (cur_distance f + 1) (queue f) (seen_nodes f)) g
    = (Ret f', g)
    ∧ level_inv g start_node (S k) f'
    ∧ (queue f' = []
       ∨ (size (nodes g ∖ seen_nodes f') < size (nodes g ∖ seen_nodes f))%nat).
Proof.
  intros (Hd & Hs1 & Hs2 & Hqnd & Hq & Hpnd & Hp & Hpd).
  set (f1 := Frame (distance_pairs f) (cur_distance f + 1) (queue f)
                   (seen_nodes f)).
  destruct (bfs_for_run set_iter set_iter_perm g (queue f) [] f1)
    as (f' & Hrun & Hd' & new & Hq' & Hp' & Hs' & Hnd' & Hin').
  { simpl. by rewrite app_nil_r. }
  { intros u [Hw _]%Hq. by eapply walk_nodes. }
  simpl in *.
  assert (∀ v, v ∈ new → shortest g start_node v (S k)) as HA.
  { intros v [(u & [Hu _]%Hq & Hn) Hv]%Hin'. split.
    - by eapply walk_snoc.
    - intros m Hm. destruct (decide (m ≤ k)%nat) as [Hle|]; [|lia].
      destruct Hv. by eapply Hs2. }
  assert (∀ m v, (m ≤ S k)%nat → walk g m start_node v →
                 v ∈ seen_nodes f ∨ v ∈ new) as HB.
  { intros m v Hm Hw.
    destruct (decide (m ≤ k)%nat) as [Hle|Hgt]; [left; by eapply Hs2|].
    assert (m = S k) as -> by lia.
    destruct (walk_unsnoc _ _ _ _ Hw) as (u & Hu & Hn).
    destruct (Hs1 u) as (j & Hj & Hsh); [by eapply Hs2|].
    destruct (decide (v ∈ seen_nodes f)) as [|Hv]; [by left|]. right.
    apply Hin'. split; [|done]. exists u. split; [|done].
    apply Hq. destruct (decide (j = k)) as [->|]; [done|].
    destruct Hv. apply (Hs2 (S j)); [lia|].
    eapply walk_snoc; [apply Hsh|done]. }
  exists f'. split; [done|]. split.
  - unfold level_inv. rewrite Hd', Hq', Hp', Hs'. split_and!.
    + lia.
    + intros v [Hv|Hv%elem_of_list_to_set]%elem_of_union.
      * destruct (Hs1 v Hv) as (j & Hj & Hsh). exists j. split; [lia|done].
      * exists (S k). split; [done|by apply HA].
    + intros m v Hm Hw. rewrite elem_of_union, elem_of_list_to_set.
      by eapply HB.
    + done.
    + intros v. simpl. split; [apply HA|].
      intros Hsh. destruct (HB (S k) v) as [Hv|Hv]; [done|apply Hsh| |done].
      destruct (Hs1 v Hv) as (j & Hj & Hsh').
      pose proof (shortest_unique _ _ _ _ _ Hsh Hsh'). lia.
    + rewrite fmap_app. apply NoDup_app. split_and!.
      * done.
      * intros v [Hv _]%Hp. rewrite <- list_fmap_compose.
        rewrite list_fmap_id. intros [_ Hv']%Hin'. done.
      * rewrite <- list_fmap_compose. by rewrite list_fmap_id.
    + intros v. rewrite fmap_app, elem_of_app, Hp.
      rewrite <- list_fmap_compose, list_fmap_id.
      rewrite elem_of_union, elem_of_list_to_set. split.
      * intros [[Hv Hne]|Hv]; [tauto|]. split; [tauto|].
        intros ->. apply Hin' in Hv as [_ Hv]. apply Hv.
        apply (Hs2 0%nat); [lia|constructor].
      * intros [[Hv|Hv] Hne]; tauto.
    + intros v d [Hv|Hv]%elem_of_app; [by apply Hpd|].
      apply list_elem_of_fmap in Hv as (v' & [= -> ->] & Hv').
      exists (S k). split; [lia|by apply HA].
  - destruct new as [|x new]; [left; by rewrite Hq'|right].
    apply subset_size. rewrite Hs'.
    assert (x ∈ nodes g ∧ x ∉ seen_nodes f) as [Hx1 Hx2].
    { assert (x ∈ x :: new) as Hx by set_solver.
      split; [|by apply Hin' in Hx as [_ ?]].
      apply HA in Hx as [Hw _]. by eapply walk_nodes. }
    set_solver.
Qed.

Lemma bfs_while_run fuel : ∀ k f,
  level_inv g start_node k f →
  queue f = [] ∨ (size (nodes g ∖ seen_nodes f) < fuel)%nat →
  ∃ f' k',
    bfs_while set_iter fuel f g = (Ret f', g)
    ∧ level_inv g start_node k' f'
    ∧ queue f' = [].
Proof.
  induction fuel as [|fuel IH]; intros k f Hinv Hfuel.
  - destruct Hfuel as [Hq|?]; [|lia]. exists f, k. simpl. by rewrite Hq.
  - destruct (queue f) as [|u q] eqn:Hq.
    { exists f, k. simpl. by rewrite Hq. }
    destruct Hfuel as [?|Hfuel]; [done|].
    destruct (level_step k f Hinv) as (f2 & Hrun & Hinv2 & Hprog).
    destruct (IH (S k) f2 Hinv2) as (f' & k' & Hrun' & Hinv' & Hq').
    { destruct Hprog as [?|?]; [by left|right; lia]. }
    exists f', k'. split; [|done].
    simpl. rewrite Hq. rewrite <- Hq. unfold bind. by rewrite Hrun.
Qed.

End Levels.

(** ** What [bfs] returns *)

Section Bfs.

Variable set_iter : gset Z → list Z.
Hypothesis set_iter_perm : ∀ s, set_iter s ≡ₚ elements s.

Lemma bfs_absent fuel start_node g :
  start_node ∉ nodes g →
  bfs set_iter fuel start_node g
  = (Raise (ValueError "Node not in graph!"), g).
Proof.
  intros H. unfold bfs, bind. rewrite contains_run.
  by rewrite bool_decide_eq_false_2.
Qed.

Lemma bfs_present fuel start_node g :
  start_node ∈ nodes g →
  bfs set_iter fuel start_node g
  = match bfs_while set_iter fuel
            (Frame [] 0 [start_node] {[start_node]}) g with
    | (Ret f, g') =>
        (Ret (distance_pairs f ++
              map (λ node, (node, -1))
                  (filter (λ node, node ∉ seen_nodes f) (all_nodes g'))), g')
    | (Raise e, g') => (Raise e, g')
    | (OutOfFuel, g') => (OutOfFuel, g')
    end.
Proof.
  intros H. unfold bfs, bind at 1. rewrite contains_run.
  rewrite bool_decide_eq_true_2 by done. simpl. unfold bind.
  by destruct (bfs_while _ _ _ g) as [[f| |] g'].
Qed.

(** With symmetry alone: the pairs found by the search, followed by a
    pair with -1 for each entry of [all_nodes] that was not reached. *)
Lemma bfs_on_symmetric fuel start_node g :
  symmetric g → start_node ∈ nodes g → (size (nodes g) ≤ fuel)%nat →
  ∃ (found : list (Z * Z)) (seen : gset Z),
    bfs set_iter fuel start_node g
    = (Ret (found ++ map (λ node, (node, -1))
                         (filter (λ node, node ∉ seen) (all_nodes g))), g)
    ∧ (∀ v, v ∈ seen ↔ reachable g start_node v)
    ∧ NoDup found.*1
    ∧ (∀ v, v ∈ found.*1 ↔ v ∈ seen ∧ v ≠ start_node)
    ∧ (∀ v d, (v, d) ∈ found →
              ∃ j, d = Z.of_nat j ∧ shortest g start_node v j).
Proof.
  intros Hsym Hstart Hfuel.
  destruct (bfs_while_run set_iter set_iter_perm g start_node Hsym Hstart
              fuel 0 _ (level_inv_start g start_node))
    as (f & k & Hrun & Hinv & Hq).
  { right. simpl. eapply Nat.lt_le_trans; [|exact Hfuel].
    apply subset_size. set_solver. }
  exists (distance_pairs f), (seen_nodes f).
  rewrite bfs_present, Hrun by done. split; [done|].
  split.
  { intros v. split.
    - destruct Hinv as (_ & Hs1 & _). intros (j & _ & Hw & _)%Hs1. by exists j.
    - intros [m Hw]. by eapply level_inv_final. }
  by destruct Hinv as (_ & _ & _ & _ & _ & Hpnd & Hp & Hpd).
Qed.

Lemma bfs_correct fuel start_node g :
  graph_inv g → start_node ∈ nodes g → (size (nodes g) ≤ fuel)%nat →
  ∃ pairs,
    bfs set_iter fuel start_node g = (Ret pairs, g)
    ∧ NoDup pairs.*1
    ∧ (∀ v, v ∈ pairs.*1 ↔ v ∈ nodes g ∧ v ≠ start_node)
    ∧ (∀ v d, (v, d) ∈ pairs →
              (∃ j, d = Z.of_nat j ∧ shortest g start_node v j)
              ∨ (d = -1 ∧ ¬ reachable g start_node v)).
Proof.
  intros [Hsym [Hnd Hall]] Hstart Hfuel.
  destruct (bfs_on_symmetric fuel start_node g Hsym Hstart Hfuel)
    as (found & seen & Hrun & Hseen & Hpnd & Hp & Hpd).
  assert (∀ v, v ∈ seen → v ∈ nodes g) as Hin.
  { intros v [m Hw]%Hseen. by eapply walk_nodes. }
  assert (start_node ∈ seen) as Hs0 by (apply Hseen; exists 0%nat; constructor).
  eexists. split; [done|].
  rewrite fmap_app, <- list_fmap_compose, list_fmap_id. split_and!.
  - apply NoDup_app. split_and!; [done| |by apply NoDup_filter].
    intros v [Hv _]%Hp [Hv' _]%list_elem_of_filter. done.
  - intros v. rewrite elem_of_app, Hp, list_elem_of_filter, Hall. split.
    + intros [[Hv Hne]|[Hv Hv']]; [by auto|]. split; [done|].
      by intros ->.
    + intros [Hv Hne]. destruct (decide (v ∈ seen)); tauto.
  - intros v d [Hv|Hv]%elem_of_app; [left; by apply Hpd|right].
    apply list_elem_of_fmap in Hv as (v' & [= -> ->] & [Hv _]%list_elem_of_filter).
    split; [done|]. by rewrite <- Hseen.
Qed.

Lemma bfs_while_state fuel start_node g : ∀ k f,
  symmetric g → start_node ∈ nodes g →
  level_inv g start_node k f →
  exec (bfs_while set_iter fuel f) g = g.
Proof.
  intros k f Hsym Hstart. revert k f.
  induction fuel as [|fuel IH]; intros k f Hinv; unfold exec; simpl.
  - by destruct (queue f).
  - destruct (queue f) as [|u q] eqn:Hq; [done|].
    destruct (level_step set_iter set_iter_perm g start_node Hsym Hstart
                k f Hinv) as (f2 & Hrun & Hinv2 & _).
    rewrite <- Hq. unfold bind. rewrite Hrun. by eapply IH.
Qed.

Lemma bfs_state fuel start_node g :
  symmetric g → exec (bfs set_iter fuel start_node) g = g.
Proof.
  intros Hsym. destruct (decide (start_node ∈ nodes g)) as [Hin|Hout].
  - unfold exec. rewrite bfs_present by done.
    pose proof (bfs_while_state fuel start_node g 0 _ Hsym Hin
                  (level_inv_start g start_node)) as H.
    unfold exec in H.
    by destruct (bfs_while _ _ _ g) as [[f| |] g']; simpl in *.
  - unfold exec. by rewrite bfs_absent.
Qed.

(** ** What [distance] returns *)

Lemma distance_absent fuel node1 node2 g :
  node1 ∉ nodes g ∨ node2 ∉ nodes g →
  distance set_iter fuel node1 node2 g
  = (Raise (ValueError "Node(s) not in graph!"), g).
Proof.
  intros H. unfold distance, bind. rewrite !contains_run.
  destruct (decide (node1 ∈ nodes g)) as [H1|H1].
  - rewrite bool_decide_eq_true_2 by done. cbn [negb]. rewrite contains_run.
    destruct H as [?|H2]; [done|]. by rewrite bool_decide_eq_false_2.
  - by rewrite bool_decide_eq_false_2.
Qed.

Lemma distance_present fuel node1 node2 g :
  node1 ∈ nodes g → node2 ∈ nodes g →
  distance set_iter fuel node1 node2 g
  = if decide (node1 = node2) then (Ret 0, g)
    else match bfs set_iter fuel node1 g with
         | (Ret pairs, g') =>
             match pairs_of node2 pairs with
             | [] => (Raise (IndexError "list index out of range"), g')
             | found :: _ => (Ret found.2, g')
             end
         | (Raise e, g') => (Raise e, g')
         | (OutOfFuel, g') => (OutOfFuel, g')
         end.
Proof.
  intros H1 H2. unfold distance, bind. rewrite !contains_run.
  rewrite bool_decide_eq_true_2 by done. cbn [negb]. rewrite contains_run.
  rewrite bool_decide_eq_true_2 by done. cbn [negb ret].
  case_decide; [done|].
  destruct (bfs _ _ _ g) as [[pairs| |] g']; [|done|done].
  by destruct (pairs_of node2 pairs).
Qed.

Lemma pairs_of_unique node pairs :
  NoDup pairs.*1 → node ∈ pairs.*1 →
  ∃ d, pairs_of node pairs = [(node, d)] ∧ (node, d) ∈ pairs.
Proof.
  unfold pairs_of. induction pairs as [|[v d] pairs IH]; simpl.
  - intros _ H. by apply elem_of_nil in H.
  - intros [Hv Hnd]%NoDup_cons Hin.
    destruct (decide (v = node)) as [->|Hne].
    + exists d. rewrite filter_cons_True by done.
      split; [|by left]. f_equal.
      destruct (filter _ pairs) as [|[v' d'] rest] eqn:E; [done|].
      assert ((v', d') ∈ filter (λ p, p.1 = node) pairs) as [Heq Hin']%list_elem_of_filter
        by (rewrite E; by left).
      simpl in Heq. subst v'. destruct Hv.
      apply list_elem_of_fmap. by exists (node, d').
    + rewrite filter_cons_False by done.
      apply elem_of_cons in Hin as [?|Hin]; [done|].
      destruct (IH Hnd Hin) as (d' & Heq & Hd'). exists d'.
      split; [done|by right].
Qed.

Lemma distance_correct fuel node1 node2 g :
  graph_inv g → node1 ∈ nodes g → node2 ∈ nodes g →
  node1 ≠ node2 → (size (nodes g) ≤ fuel)%nat →
  ∃ pairs d,
    bfs set_iter fuel node1 g = (Ret pairs, g)
    ∧ (node2, d) ∈ pairs
    ∧ distance set_iter fuel node1 node2 g = (Ret d, g)
    ∧ ((∃ j, d = Z.of_nat j ∧ shortest g node1 node2 j)
       ∨ (d = -1 ∧ ¬ reachable g node1 node2)).
Proof.
  intros Hinv H1 H2 Hne Hfuel.
  destruct (bfs_correct fuel node1 g Hinv H1 Hfuel)
    as (pairs & Hrun & Hnd & Hdom & Hd).
  destruct (pairs_of_unique node2 pairs Hnd) as (d & Hfound & Hin).
  { by apply Hdom. }
  exists pairs, d. split_and!; [done|done| |by apply Hd].
  rewrite distance_present by done.
  rewrite decide_False by done. by rewrite Hrun, Hfound.
Qed.

Lemma pairs_of_app node l1 l2 :
  pairs_of node (l1 ++ l2) = pairs_of node l1 ++ pairs_of node l2.
Proof. apply filter_app. Qed.

Lemma pairs_of_absent node pairs : node ∉ pairs.*1 → pairs_of node pairs = [].
Proof.
  intros Hn. unfold pairs_of.
  destruct (filter _ pairs) as [|[v d] rest] eqn:E; [done|].
  assert ((v, d) ∈ filter (λ p, p.1 = node) pairs) as [Heq Hin]%list_elem_of_filter
    by (rewrite E; by left).
  simpl in Heq. subst v. destruct Hn.
  apply list_elem_of_fmap. by exists (node, d).
Qed.

Lemma pairs_of_unreached node (l : list Z) :
  pairs_of node (map (λ n, (n, -1)) l)
  = map (λ n, (n, -1)) (filter (λ n, n = node) l).
Proof.
  unfold pairs_of. induction l as [|x l IH]; [done|]. simpl.
  destruct (decide (x = node)) as [->|Hne].
  - rewrite !filter_cons_True by done. simpl. by rewrite IH.
  - by rewrite !filter_cons_False.
Qed.

(** What [distance] does on every state with symmetric adjacency, for
    two different nodes of the graph: the answer for a node that cannot
    be reached depends on whether [all_nodes] still lists it. *)
Lemma distance_on_symmetric fuel node1 node2 g :
  symmetric g → node1 ∈ nodes g → node2 ∈ nodes g →
  node1 ≠ node2 → (size (nodes g) ≤ fuel)%nat →
  (reachable g node1 node2 →
     ∃ j, distance set_iter fuel node1 node2 g = (Ret (Z.of_nat j), g)
          ∧ shortest g node1 node2 j)
  ∧ (¬ reachable g node1 node2 →
     distance set_iter fuel node1 node2 g
     = if decide (node2 ∈ all_nodes g) then (Ret (-1), g)
       else (Raise (IndexError "list index out of range"), g)).
Proof.
  intros Hsym H1 H2 Hne Hfuel.
  destruct (bfs_on_symmetric fuel node1 g Hsym H1 Hfuel)
    as (found & seen & Hrun & Hseen & Hpnd & Hp & Hpd).
  rewrite distance_present by done. rewrite decide_False by done.
  rewrite Hrun, pairs_of_app. split.
  - intros Hr%Hseen.
    destruct (pairs_of_unique node2 found Hpnd) as (d & -> & Hd).
    { by apply Hp. }
    simpl. destruct (Hpd _ _ Hd) as (j & -> & Hsh). by exists j.
  - intros Hr. rewrite <- Hseen in Hr.
    rewrite pairs_of_absent by (rewrite Hp; tauto). simpl.
    rewrite pairs_of_unreached.
    destruct (filter (λ n, n = node2) _) as [|x rest] eqn:E.
    + rewrite decide_False; [done|]. intros Hin.
      assert (node2 ∈ filter (λ n, n = node2)
                (filter (λ node, node ∉ seen) (all_nodes g))) as Hc
        by (rewrite !list_elem_of_filter; tauto).
      rewrite E in Hc. by apply elem_of_nil in Hc.
    + assert (x ∈ filter (λ n, n = node2)
                (filter (λ node, node ∉ seen) (all_nodes g))) as Hc
        by (rewrite E; by left).
      rewrite !list_elem_of_filter in Hc. destruct Hc as (-> & _ & Hin).
      by rewrite decide_True.
Qed.

End Bfs.

(** ** Iteration *)

Lemma next_run g :
  __next__ g
  = match all_nodes g with
    | node :: rest => (Ret node, MkGraph (adjacency_dict g) rest)
    | [] => (Raise StopIteration, g)
    end.
Proof. unfold __next__, bind. simpl. by destruct (all_nodes g). Qed.

Lemma next_until_stop_run fuel : ∀ g,
  (length (all_nodes g) < fuel)%nat →
  next_until_stop fuel g = (Ret (all_nodes g), MkGraph (adjacency_dict g) []).
Proof.
  induction fuel as [|fuel IH]; intros [d l] Hlen; [lia|].
  simpl. rewrite next_run. simpl in *. destruct l as [|x l]; [done|].
  unfold bind. rewrite IH by (simpl in *; lia). done.
Qed.

Lemma iterate_run fuel g :
  (length (all_nodes g) < fuel)%nat →
  iterate fuel g = (Ret (all_nodes g), MkGraph (adjacency_dict g) []).
Proof. intros H. unfold iterate, bind. simpl. by apply next_until_stop_run. Qed.

(** ** The claims about the traversal *)

Section Claims.

Variable set_iter : gset Z → list Z.
Hypothesis set_iter_perm : ∀ s, set_iter s ≡ₚ elements s.

(** C1. On a graph that satisfies the invariants of the data model, and
    for a start node of the graph, [bfs] returns a list of pairs with
    exactly one entry for every node other than the start node; a node
    reachable from the start node is paired with the length of a
    shortest path to it, and an unreachable node with -1. *)
Theorem bfs_shortest_distances (g : Graph) (start_node : Z) (fuel : nat) :
  graph_inv g → start_node ∈ nodes g → (size (nodes g) ≤ fuel)%nat →
  ∃ pairs,
    bfs set_iter fuel start_node g = (Ret pairs, g)
    ∧ NoDup pairs.*1
    ∧ (∀ v, v ∈ pairs.*1 ↔ v ∈ nodes g ∧ v ≠ start_node)
    ∧ (∀ v d, (v, d) ∈ pairs →
              (reachable g start_node v →
               ∃ j, d = Z.of_nat j ∧ shortest g start_node v j)
              ∧ (¬ reachable g start_node v → d = -1)).
Proof.
  intros Hinv Hstart Hfuel.
  destruct (bfs_correct set_iter set_iter_perm fuel start_node g
              Hinv Hstart Hfuel) as (pairs & Hrun & Hnd & Hdom & Hd).
  exists pairs. split_and!; [done..|].
  intros v d [(j & -> & Hsh)|[-> Hun]]%Hd; split.
  - intros _. by exists j.
  - intros []. exists j. apply Hsh.
  - done.
  - done.
Qed.

(** C7. On a graph that satisfies the invariants of the data model,
    [distance] gives the same answer for a pair of nodes of the graph
    in either order. *)
Theorem distance_symmetric (g : Graph) (a b : Z) (fuel : nat) :
  graph_inv g → a ∈ nodes g → b ∈ nodes g → (size (nodes g) ≤ fuel)%nat →
  ∃ d, distance set_iter fuel a b g = (Ret d, g)
       ∧ distance set_iter fuel b a g = (Ret d, g).
Proof.
  intros Hinv Ha Hb Hfuel. destruct (decide (a = b)) as [->|Hne].
  - exists 0. rewrite distance_present by done. by rewrite decide_True.
  - destruct (distance_correct set_iter set_iter_perm fuel a b g)
      as (_ & d1 & _ & _ & Hab & H1); [done..|].
    destruct (distance_correct set_iter set_iter_perm fuel b a g)
      as (_ & d2 & _ & _ & Hba & H2); [done..|].
    exists d1. split; [done|]. rewrite Hba. do 2 f_equal.
    destruct Hinv as [Hsym _].
    destruct H1 as [(j1 & -> & Hs1)|[-> Hu1]], H2 as [(j2 & -> & Hs2)|[-> Hu2]].
    + f_equal. apply shortest_reverse in Hs2; [|done].
      by eapply shortest_unique.
    + destruct Hu2. exists j1. apply walk_reverse; [done|apply Hs1].
    + destruct Hu1. exists j2. apply walk_reverse; [done|apply Hs2].
    + done.
Qed.

Lemma distance_state fuel node1 node2 g :
  symmetric g → exec (distance set_iter fuel node1 node2) g = g.
Proof.
  intros Hsym. unfold exec.
  destruct (decide (node1 ∈ nodes g)) as [H1|H1];
    [destruct (decide (node2 ∈ nodes g)) as [H2|H2]|].
  - rewrite distance_present by done. case_decide; [done|].
    pose proof (bfs_state set_iter set_iter_perm fuel node1 g Hsym) as Hbfs.
    unfold exec in Hbfs.
    destruct (bfs _ _ _ g) as [[pairs| |] g']; simpl in *; [|done..].
    by destruct (pairs_of node2 pairs).
  - rewrite distance_absent; [done|by right].
  - rewrite distance_absent; [done|by left].
Qed.

(** C10. On a graph that satisfies the invariants of the data model the
    queries [__contains__], [is_edge_in_graph], [__getitem__], [bfs],
    [distance] and [__eq__] leave both attributes as they were, whether
    they return or raise; in particular [bfs] never adds a key to the
    adjacency dictionary. *)
Theorem queries_leave_graph (g other : Graph) (n u v start_node a b : Z) (fuel : nat) :
  graph_inv g →
  exec (__contains__ n) g = g
  ∧ exec (is_edge_in_graph (u, v)) g = g
  ∧ exec (__getitem__ n) g = g
  ∧ exec (bfs set_iter fuel start_node) g = g
  ∧ exec (distance set_iter fuel a b) g = g
  ∧ exec (__eq__ other) g = g.
Proof.
  intros [Hsym _]. split_and!.
  - unfold exec. by rewrite contains_run.
  - unfold exec. by rewrite is_edge_in_graph_run.
  - unfold exec. rewrite getitem_run.
    by destruct (items (adjacency_dict g) !! n).
  - by apply bfs_state.
  - by apply distance_state.
  - done.
Qed.

(** On a graph that satisfies the invariants of the data model, the
    three queries that can fail raise [ValueError] when a node argument
    is not in the graph and return otherwise. *)
Lemma errors_under_invariants (g : Graph) (n a b : Z) (fuel : nat) :
  graph_inv g → (size (nodes g) ≤ fuel)%nat →
  (n ∉ nodes g →
     result (__getitem__ n) g = Raise (ValueError "Node not in graph!")
     ∧ result (bfs set_iter fuel n) g = Raise (ValueError "Node not in graph!"))
  ∧ (n ∈ nodes g →
     (∃ s, result (__getitem__ n) g = Ret s)
     ∧ ∃ pairs, result (bfs set_iter fuel n) g = Ret pairs)
  ∧ (a ∉ nodes g ∨ b ∉ nodes g →
     result (distance set_iter fuel a b) g
     = Raise (ValueError "Node(s) not in graph!"))
  ∧ (a ∈ nodes g ∧ b ∈ nodes g →
     ∃ d, result (distance set_iter fuel a b) g = Ret d).
Proof.
  intros Hinv Hfuel. unfold result. split_and!.
  - intros Hn. rewrite getitem_run, bfs_absent by done.
    unfold nodes in Hn. apply not_elem_of_dom in Hn. by rewrite Hn.
  - intros Hn. rewrite getitem_run. split.
    + apply elem_of_nodes in Hn as [s ->]. by exists s.
    + destruct (bfs_correct set_iter set_iter_perm fuel n g Hinv Hn Hfuel)
        as (pairs & -> & _). by exists pairs.
  - intros H. by rewrite distance_absent.
  - intros [Ha Hb]. destruct (decide (a = b)) as [->|Hne].
    + exists 0. rewrite distance_present by done. by rewrite decide_True.
    + destruct (distance_correct set_iter set_iter_perm fuel a b g)
        as (_ & d & _ & _ & -> & _); [done..|]. by exists d.
Qed.

End Claims.

(** ** States reached through the public methods *)

Lemma well_formed_api_inv g :
  well_formed g → all_nodes g = keys (adjacency_dict g) → api_inv g.
Proof.
  intros (Hwf & Hsym & _) Heq. split_and!; [done|done|]. by rewrite Heq.
Qed.

Lemma with_edge_api_inv edge g : api_inv g → api_inv (with_edge edge g).
Proof.
  intros (Hwf & Hsym & _). split_and!.
  - simpl. by do 2 apply dict_add_wf.
  - intros a b. rewrite !with_edge_neighbor. specialize (Hsym a b). tauto.
  - done.
Qed.

Lemma with_node_api_inv node g :
  node ∉ nodes g → api_inv g → api_inv (with_node node g).
Proof.
  intros Hn (Hwf & Hsym & _). split_and!.
  - simpl. by apply dict_setitem_wf.
  - intros a b. rewrite !with_node_neighbor by done. apply Hsym.
  - done.
Qed.

Lemma Construct_api_inv edges : api_inv (Construct edges).
Proof.
  apply well_formed_api_inv; [apply Construct_well_formed|].
  by rewrite Construct_run.
Qed.

Section Api.

Variable set_iter : gset Z → list Z.
Hypothesis set_iter_perm : ∀ s, set_iter s ≡ₚ elements s.

Lemma after_call_api_inv c g : api_inv g → api_inv (after_call set_iter c g).
Proof.
  intros Hinv. destruct c; simpl.
  - rewrite exec_add_edge.
    destruct (neighborb g edge.1 edge.2); [done|by apply with_edge_api_inv].
  - rewrite exec_add_node.
    case_bool_decide; [done|by apply with_node_api_inv].
  - unfold exec. rewrite next_run.
    destruct Hinv as (Hwf & Hsym & Hsuf).
    destruct (all_nodes g) as [|x rest] eqn:E; simpl.
    + split_and!; [done|done|]. rewrite E. apply suffix_nil.
    + split_and!; [done|done|]. simpl. by eapply suffix_cons_l.
  - unfold exec. by rewrite contains_run.
  - unfold exec. by rewrite is_edge_in_graph_run.
  - unfold exec. rewrite getitem_run.
    by destruct (items (adjacency_dict g) !! node).
  - rewrite bfs_state; [done|done|apply Hinv].
  - rewrite distance_state; [done|done|apply Hinv].
  - done.
Qed.

(** Whatever is called after construction, the adjacency stays
    symmetric and [all_nodes] is a tail of the key list: duplicate-free
    and made of nodes of the graph, though not of all of them. *)
Lemma after_calls_api_inv edges cs :
  api_inv (after_calls set_iter cs (Construct edges)).
Proof.
  apply (foldl_preserves api_inv); [|apply Construct_api_inv].
  intros g' c. apply after_call_api_inv.
Qed.

(** [distance] on any state reached through the public methods, for two
    different nodes of the graph: a node that can be reached gets its
    shortest distance; one that cannot gets -1 as long as [all_nodes]
    still lists it, and [IndexError] once a [__next__] call has taken
    it off the list. *)
Lemma distance_after_calls edges cs node1 node2 fuel :
  let g := after_calls set_iter cs (Construct edges) in
  node1 ∈ nodes g → node2 ∈ nodes g →
  node1 ≠ node2 → (size (nodes g) ≤ fuel)%nat →
  (reachable g node1 node2 →
     ∃ j, distance set_iter fuel node1 node2 g = (Ret (Z.of_nat j), g)
          ∧ shortest g node1 node2 j)
  ∧ (¬ reachable g node1 node2 →
     distance set_iter fuel node1 node2 g
     = if decide (node2 ∈ all_nodes g) then (Ret (-1), g)
       else (Raise (IndexError "list index out of range"), g)).
Proof.
  intros g. apply distance_on_symmetric; [done|].
  apply (after_calls_api_inv edges cs).
Qed.

End Api.

Lemma api_inv_nodes_listed g :
  api_inv g →
  NoDup (all_nodes g) ∧ ∀ n, n ∈ all_nodes g → n ∈ nodes g.
Proof.
  intros ([Hnd Hk] & _ & [l Hl]). rewrite Hl in Hnd, Hk.
  apply NoDup_app in Hnd as (_ & _ & Hnd). split; [done|].
  intros n Hn. apply Hk. set_solver.
Qed.

(** A successful [__next__] always breaks the listing of the nodes. *)
Lemma next_breaks_nodes_listed g node :
  nodes_listed g → result __next__ g = Ret node →
  node ∈ nodes g ∧ node ∉ all_nodes (exec __next__ g).
Proof.
  intros [Hnd Hall]. unfold result, exec. rewrite next_run.
  destruct (all_nodes g) as [|x rest] eqn:E; [done|]. simpl.
  intros [= ->]. apply NoDup_cons in Hnd as [Hx _].
  split; [|done]. apply Hall. by left.
Qed.

(** ** The claims at concrete graphs *)

Lemma figure1_nodes : nodes figure1 = {[1; 2; 3; 4; 5; 6]}.
Proof. by vm_compute. Qed.

Lemma bfs_shortest_distances_witness :
  (∀ s : gset Z, elements s ≡ₚ elements s)
  ∧ graph_inv figure1
  ∧ 6 ∈ nodes figure1
  ∧ (size (nodes figure1) ≤ 6)%nat
  ∧ ∃ pairs,
      bfs elements 6 6 figure1 = (Ret pairs, figure1)
      ∧ NoDup pairs.*1
      ∧ (∀ v, v ∈ pairs.*1 ↔ v ∈ nodes figure1 ∧ v ≠ 6)
      ∧ (∀ v d, (v, d) ∈ pairs →
                (reachable figure1 6 v →
                 ∃ j, d = Z.of_nat j ∧ shortest figure1 6 v j)
                ∧ (¬ reachable figure1 6 v → d = -1)).
Proof.
  assert (∀ s : gset Z, elements s ≡ₚ elements s) as H1 by reflexivity.
  assert (graph_inv figure1) as H2 by apply Construct_well_formed.
  assert (6 ∈ nodes figure1) as H3 by (rewrite figure1_nodes; set_solver).
  assert (size (nodes figure1) ≤ 6)%nat as H4 by (vm_compute; lia).
  split_and!; [exact H1|exact H2|exact H3|exact H4|].
  exact (bfs_shortest_distances elements H1 figure1 6 6%nat H2 H3 H4).
Defined.

Lemma distance_symmetric_witness :
  (∀ s : gset Z, elements s ≡ₚ elements s)
  ∧ graph_inv figure1
  ∧ 6 ∈ nodes figure1
  ∧ 1 ∈ nodes figure1
  ∧ (size (nodes figure1) ≤ 6)%nat
  ∧ ∃ d, distance elements 6 6 1 figure1 = (Ret d, figure1)
         ∧ distance elements 6 1 6 figure1 = (Ret d, figure1).
Proof.
  assert (∀ s : gset Z, elements s ≡ₚ elements s) as H1 by reflexivity.
  assert (graph_inv figure1) as H2 by apply Construct_well_formed.
  assert (6 ∈ nodes figure1) as H3 by (rewrite figure1_nodes; set_solver).
  assert (1 ∈ nodes figure1) as H4 by (rewrite figure1_nodes; set_solver).
  assert (size (nodes figure1) ≤ 6)%nat as H5 by (vm_compute; lia).
  split_and!; [exact H1|exact H2|exact H3|exact H4|exact H5|].
  exact (distance_symmetric elements H1 figure1 6 1 6%nat H2 H3 H4 H5).
Defined.

Lemma queries_leave_graph_witness :
  (∀ s : gset Z, elements s ≡ₚ elements s)
  ∧ graph_inv figure1
  ∧ exec (__contains__ 10) figure1 = figure1
  ∧ exec (is_edge_in_graph (10, 20)) figure1 = figure1
  ∧ exec (__getitem__ 10) figure1 = figure1
  ∧ exec (bfs elements 6 6) figure1 = figure1
  ∧ exec (distance elements 6 10 20) figure1 = figure1
  ∧ exec (__eq__ empty_graph) figure1 = figure1.
Proof.
  assert (∀ s : gset Z, elements s ≡ₚ elements s) as H1 by reflexivity.
  assert (graph_inv figure1) as H2 by apply Construct_well_formed.
  split_and!; [exact H1|exact H2|..];
    apply (queries_leave_graph elements H1 figure1 empty_graph
             10 10 20 6 10 20 6%nat H2).
Defined.

(** Sample values, as in the test suite. *)
Example figure1_bfs :
  result (bfs elements 6 6) figure1
  = Ret [(4, 1); (5, 2); (3, 2); (2, 3); (1, 3)].
Proof. by vm_compute. Qed.

Example figure1_distance :
  result (distance elements 6 6 1) figure1 = Ret 3
  ∧ result (distance elements 6 1 2) figure1 = Ret 1
  ∧ result (distance elements 0 6 6) figure1 = Ret 0
  ∧ result (distance elements 6 10 20) figure1
    = Raise (ValueError "Node(s) not in graph!").
Proof. by vm_compute. Qed.

(** Outside the invariants the dictionary is not safe from [bfs]: when
    a stored neighbour is not a key, looking it up inserts it. *)
Example bfs_inserts_missing_key :
  let g := MkGraph (Dict {[1 := {[2]}]} [1]) [1] in
  keys (adjacency_dict (exec (bfs elements 3 1) g)) = [1; 2].
Proof. by vm_compute. Qed.

(** ** Iteration consumes the node list *)

(** Two passes over the graph built from the edge (1,2): the first
    hands out both nodes and leaves [all_nodes] empty, the second hands
    out nothing. *)
Example iteration_twice :
  let g := Construct [(1, 2)] in
  result (iterate 3) g = Ret [1; 2]
  ∧ all_nodes (exec (iterate 3) g) = []
  ∧ result (iterate 3) (exec (iterate 3) g) = Ret [].
Proof. by vm_compute. Qed.

(** C2, as stated, fails on the graph built from the edge (1,2): it is
    not the case that a pass hands out the node list, leaves the list
    as it was, and that a second pass hands it out again. *)
Lemma iteration_does_not_start_over :
  ¬ (result (iterate 3) (Construct [(1, 2)])
     = Ret (all_nodes (Construct [(1, 2)]))
     ∧ all_nodes (exec (iterate 3) (Construct [(1, 2)]))
       = all_nodes (Construct [(1, 2)])
     ∧ result (iterate 3) (exec (iterate 3) (Construct [(1, 2)]))
       = Ret (all_nodes (Construct [(1, 2)]))).
Proof. intros (_ & _ & H). vm_compute in H. discriminate. Qed.

(** C2, amended. Iterating the graph hands out the entries of
    [all_nodes] in order, each once, and then stops; the graph is its
    own iterator, so a pass is taken once: a new pass goes on after the
    nodes that earlier [__next__] calls handed out, and after a
    complete pass it hands out nothing. *)
Theorem iteration_single_pass (g : Graph) (fuel : nat) :
  (length (all_nodes g) < fuel)%nat →
  result (iterate fuel) g = Ret (all_nodes g)
  ∧ (∀ node rest, all_nodes g = node :: rest →
       result __next__ g = Ret node
       ∧ result (iterate fuel) (exec __next__ g) = Ret rest)
  ∧ result (iterate fuel) (exec (iterate fuel) g) = Ret [].
Proof.
  intros Hlen. unfold result, exec. rewrite iterate_run by done. simpl.
  split_and!.
  - done.
  - intros node rest E. rewrite next_run, E. simpl.
    rewrite iterate_run by (rewrite E in Hlen; simpl in *; lia). done.
  - rewrite iterate_run by (simpl; lia). done.
Qed.

Lemma iteration_single_pass_witness :
  (length (all_nodes figure1) < 7)%nat
  ∧ result (iterate 7) figure1 = Ret (all_nodes figure1)
  ∧ (∀ node rest, all_nodes figure1 = node :: rest →
       result __next__ figure1 = Ret node
       ∧ result (iterate 7) (exec __next__ figure1) = Ret rest)
  ∧ result (iterate 7) (exec (iterate 7) figure1) = Ret [].
Proof.
  assert (length (all_nodes figure1) < 7)%nat as H by (vm_compute; lia).
  split; [exact H|]. exact (iteration_single_pass figure1 7 H).
Defined.

(** C3 fails on the code: one [__next__] call on the graph built from
    the edge (1,2) removes node 1 from [all_nodes], while 1 remains a
    key of the adjacency dictionary. *)
Theorem next_drops_node_from_list :
  let g := exec __next__ (Construct [(1, 2)]) in
  result __next__ (Construct [(1, 2)]) = Ret 1
  ∧ all_nodes g = [2]
  ∧ keys (adjacency_dict g) = [1; 2]
  ∧ 1 ∈ nodes g
  ∧ ¬ nodes_listed g.
Proof.
  assert (1 ∈ nodes (exec __next__ (Construct [(1, 2)]))) as H1.
  { assert (nodes (exec __next__ (Construct [(1, 2)])) = {[1; 2]}) as ->
      by (by vm_compute). set_solver. }
  split_and!; [by vm_compute..|exact H1|].
  intros [_ H]. apply H in H1. vm_compute in H1. set_solver.
Qed.

(** C4 fails on the code: after two nodes without an edge are added and
    the graph is iterated once, both nodes are still in the graph, yet
    [distance] between them raises [IndexError]. *)
Theorem distance_raises_IndexError :
  let g0 := exec (add_node 2) (exec (add_node 1) (Construct [])) in
  let g := exec (iterate 3) g0 in
  result (iterate 3) g0 = Ret [1; 2]
  ∧ result (__contains__ 1) g = Ret true
  ∧ result (__contains__ 2) g = Ret true
  ∧ result (bfs elements 2 1) g = Ret []
  ∧ result (distance elements 2 1 2) g
    = Raise (IndexError "list index out of range").
Proof. by vm_compute. Qed.

Lemma reachable_same_adjacency g g' a b :
  adjacency_dict g = adjacency_dict g' → reachable g a b → reachable g' a b.
Proof.
  intros Heq [n Hw]. exists n.
  induction Hw as [a|n a b c (s & Hs & Hb) _ IH]; [constructor|].
  eapply walk_edge; [|exact IH]. exists s. by rewrite <- Heq.
Qed.

(** C6 fails on the code: in the graph built from the edge (1,2) with
    node 3 added, node 3 cannot be reached from node 1 and [distance]
    returns -1; after the graph has been iterated once, the same call
    raises [IndexError] instead. *)
Theorem distance_lost_after_iteration :
  let g0 := exec (add_node 3) (Construct [(1, 2)]) in
  let g := exec (iterate 4) g0 in
  result (distance elements 3 1 3) g0 = Ret (-1)
  ∧ result (__contains__ 1) g = Ret true
  ∧ result (__contains__ 3) g = Ret true
  ∧ ¬ reachable g 1 3
  ∧ result (distance elements 3 1 3) g
    = Raise (IndexError "list index out of range").
Proof.
  intros g0 g. split_and!; [by vm_compute..| |by vm_compute].
  intros Hr. apply (reachable_same_adjacency g g0) in Hr; [|by vm_compute].
  assert (graph_inv g0) as Hinv
    by apply add_node_well_formed, Construct_well_formed.
  assert (1 ∈ nodes g0) as H1.
  { replace (nodes g0) with ({[1; 2; 3]} : gset Z) by (by vm_compute).
    set_solver. }
  destruct (bfs_correct elements (λ s, reflexivity _) 3 1 g0 Hinv H1)
    as (pairs & Hrun & _ & _ & Hd).
  { by vm_compute. }
  assert (pairs = [(2, 1); (3, -1)]) as ->.
  { assert (bfs elements 3 1 g0 = (Ret [(2, 1); (3, -1)], g0)) as Hc
      by (by vm_compute).
    congruence. }
  destruct (Hd 3 (-1)) as [(j & Hj & _)|[_ Hun]]; [set_solver|lia|done].
Qed.

(** ** Lookups that are guarded *)

(** X1. On every state, whatever its shape, [__contains__],
    [is_edge_in_graph], [__getitem__] and [__eq__] leave both
    attributes as they were: the [defaultdict] lookups of
    [is_edge_in_graph] and [__getitem__] sit behind a membership test,
    so they never insert a key, also for a node that is not in the
    graph. *)
Theorem guarded_lookups_never_insert (g other : Graph) (n u v : Z) :
  exec (__contains__ n) g = g
  ∧ exec (is_edge_in_graph (u, v)) g = g
  ∧ exec (__getitem__ n) g = g
  ∧ exec (__eq__ other) g = g.
Proof.
  unfold exec. rewrite contains_run, is_edge_in_graph_run, getitem_run.
  split_and!; [done|done| |done].
  by destruct (items (adjacency_dict g) !! n).
Qed.

(** ** The exact effect of the mutators *)

Lemma add_edge_neighbor_iff edge g a b :
  symmetric g →
  neighbor (exec (add_edge edge) g) a b
  ↔ neighbor g a b ∨ (a = edge.1 ∧ b = edge.2) ∨ (a = edge.2 ∧ b = edge.1).
Proof.
  intros Hsym. rewrite exec_add_edge.
  destruct (neighborb g edge.1 edge.2) eqn:E.
  - apply neighborb_spec in E. split; [by left|].
    intros [H|[[-> ->]|[-> ->]]]; [done|done|by apply Hsym].
  - apply with_edge_neighbor.
Qed.

Lemma add_edge_nodes edge g :
  symmetric g →
  nodes (exec (add_edge edge) g) = nodes g ∪ {[edge.1; edge.2]}.
Proof.
  intros Hsym. rewrite exec_add_edge.
  destruct (neighborb g edge.1 edge.2) eqn:E; [|apply with_edge_nodes].
  apply neighborb_spec in E.
  pose proof (neighbor_node _ _ _ E).
  pose proof (neighbor_node _ _ _ (Hsym _ _ E)). set_solver.
Qed.

Lemma contains_result node g :
  result (__contains__ node) g = Ret (bool_decide (node ∈ nodes g)).
Proof. unfold result. by rewrite contains_run. Qed.

(** X2. On a graph with symmetric adjacency, [add_edge (u, v)] makes
    [u] and [v] nodes and each the other's neighbour, and changes
    nothing else: every other membership in a neighbour set, and the
    presence of every other node, is as it was before the call. *)
Theorem add_edge_effect (g : Graph) (u v a b n : Z) :
  symmetric g →
  let g' := exec (add_edge (u, v)) g in
  (in_Neighbors g' a b
   ↔ in_Neighbors g a b ∨ (a = u ∧ b = v) ∨ (a = v ∧ b = u))
  ∧ (result (__contains__ n) g' = Ret true
     ↔ result (__contains__ n) g = Ret true ∨ n = u ∨ n = v).
Proof.
  intros Hsym g'. split.
  - rewrite !in_Neighbors_neighbor. by apply (add_edge_neighbor_iff (u, v)).
  - rewrite !contains_result. subst g'.
    rewrite (add_edge_nodes (u, v)) by done. simpl.
    split.
    + intros [= H%bool_decide_eq_true].
      apply elem_of_union in H as [H|H]; [left|right; set_solver].
      by rewrite bool_decide_eq_true_2.
    + intros H. rewrite bool_decide_eq_true_2; [done|].
      destruct H as [[= H%bool_decide_eq_true]|H]; set_solver.
Qed.

Lemma add_edge_effect_witness :
  symmetric figure1
  ∧ (let g' := exec (add_edge (6, 1)) figure1 in
     (in_Neighbors g' 1 6
      ↔ in_Neighbors figure1 1 6 ∨ (1 = 6 ∧ 6 = 1) ∨ (1 = 1 ∧ 6 = 6))
     ∧ (result (__contains__ 9) g' = Ret true
        ↔ result (__contains__ 9) figure1 = Ret true ∨ 9 = 6 ∨ 9 = 1)).
Proof.
  assert (symmetric figure1) as H by apply Construct_well_formed.
  split; [exact H|]. exact (add_edge_effect figure1 6 1 1 6 9 H).
Defined.

(** X3. [add_node] never touches an edge: after the call every node
    other than the argument has the neighbour set it had, a node that
    was new has the empty neighbour set, and a node that was present
    keeps its own. *)
Theorem add_node_effect (g : Graph) (new_node a : Z) :
  let g' := exec (add_node new_node) g in
  result (__contains__ new_node) g' = Ret true
  ∧ (a ≠ new_node → result (__getitem__ a) g' = result (__getitem__ a) g)
  ∧ (new_node ∉ nodes g → result (__getitem__ new_node) g' = Ret ∅)
  ∧ (new_node ∈ nodes g → g' = g).
Proof.
  intros g'. subst g'. rewrite exec_add_node. unfold result.
  case_bool_decide as Hin.
  - rewrite contains_run, bool_decide_eq_true_2 by done.
    by split_and!.
  - rewrite contains_run, bool_decide_eq_true_2
      by (rewrite with_node_nodes; set_solver).
    rewrite !getitem_run. unfold with_node, dict_setitem. simpl.
    split_and!; [done| | |done].
    + intros Ha. rewrite lookup_insert_ne by done.
      by destruct (items (adjacency_dict g) !! a).
    + intros _. by rewrite lookup_insert_eq.
Qed.

(** ** What the constructor builds *)

Lemma add_edges_neighbor_iff edges : ∀ g a b,
  symmetric g →
  neighbor (foldl (λ g' e, exec (add_edge e) g') g edges) a b
  ↔ neighbor g a b ∨ (a, b) ∈ edges ∨ (b, a) ∈ edges.
Proof.
  induction edges as [|[u v] es IH]; intros g a b Hsym; simpl.
  - set_solver.
  - rewrite IH by (by apply add_edge_symmetric).
    rewrite (add_edge_neighbor_iff (u, v)) by done. simpl.
    rewrite !elem_of_cons. naive_solver.
Qed.

Lemma add_edges_nodes edges : ∀ g,
  symmetric g →
  nodes (foldl (λ g' e, exec (add_edge e) g') g edges)
  = nodes g ∪ list_to_set (endpoints edges).
Proof.
  induction edges as [|[u v] es IH]; intros g Hsym; simpl.
  - set_solver.
  - rewrite IH by (by apply add_edge_symmetric).
    rewrite (add_edge_nodes (u, v)) by done. simpl. set_solver.
Qed.

Lemma elem_of_endpoints edges n :
  n ∈ endpoints edges ↔ ∃ m, (n, m) ∈ edges ∨ (m, n) ∈ edges.
Proof.
  unfold endpoints. rewrite list_elem_of_In, in_flat_map. split.
  - intros ([u v] & Hin%list_elem_of_In & Hn). simpl in Hn.
    destruct Hn as [<-|[<-|[]]]; [exists v|exists u]; auto.
  - intros (m & [H|H]); apply list_elem_of_In in H;
      eexists; (split; [exact H|]); simpl; auto.
Qed.

Lemma Construct_neighbor edges a b :
  neighbor (Construct edges) a b ↔ (a, b) ∈ edges ∨ (b, a) ∈ edges.
Proof.
  rewrite Construct_run.
  change (neighbor (exec update_all_nodes ?g) a b) with (neighbor g a b).
  rewrite add_edges_neighbor_iff by apply empty_graph_well_formed.
  split; [|by right]. intros [(s & Hs & _)|H]; [|done].
  simpl in Hs. by rewrite lookup_empty in Hs.
Qed.

Lemma Construct_nodes edges :
  nodes (Construct edges) = list_to_set (endpoints edges).
Proof.
  rewrite Construct_run.
  change (nodes (exec update_all_nodes ?g)) with (nodes g).
  rewrite add_edges_nodes by apply empty_graph_well_formed.
  unfold nodes at 1. simpl. rewrite dom_empty_L. set_solver.
Qed.

(** X4. The constructor puts in nothing but the listed edges: [b] is in
    [Neighbors(a)] of the constructed graph exactly when the pair (a,b)
    or the pair (b,a) is in the edge list, and a node is contained
    exactly when it is an endpoint of a listed edge. *)
Theorem Construct_exact (edges : list (Z * Z)) (a b n : Z) :
  (in_Neighbors (Construct edges) a b ↔ (a, b) ∈ edges ∨ (b, a) ∈ edges)
  ∧ (result (__contains__ n) (Construct edges) = Ret true
     ↔ ∃ m, (n, m) ∈ edges ∨ (m, n) ∈ edges).
Proof.
  split.
  - rewrite in_Neighbors_neighbor. apply Construct_neighbor.
  - rewrite contains_result, Construct_nodes, <- elem_of_endpoints. split.
    + intros [= H%bool_decide_eq_true]. set_solver.
    + intros H. rewrite bool_decide_eq_true_2; [done|set_solver].
Qed.

Lemma items_eq_iff g1 g2 :
  items (adjacency_dict g1) = items (adjacency_dict g2)
  ↔ nodes g1 = nodes g2 ∧ ∀ a b, neighbor g1 a b ↔ neighbor g2 a b.
Proof.
  split.
  - intros Heq. unfold nodes, neighbor. by rewrite Heq.
  - intros [Hn Hnb]. apply map_eq. intros a.
    destruct (items (adjacency_dict g1) !! a) as [s1|] eqn:E1,
             (items (adjacency_dict g2) !! a) as [s2|] eqn:E2.
    + f_equal. apply set_eq. intros b. specialize (Hnb a b).
      unfold neighbor in Hnb. rewrite E1, E2 in Hnb. naive_solver.
    + assert (a ∈ nodes g1) as Ha by (apply elem_of_nodes; eauto).
      rewrite Hn in Ha. apply elem_of_nodes in Ha as [? Ha]. congruence.
    + assert (a ∈ nodes g2) as Ha by (apply elem_of_nodes; eauto).
      rewrite <- Hn in Ha. apply elem_of_nodes in Ha as [? Ha]. congruence.
    + done.
Qed.

(** X5. Two constructed graphs are equal for [__eq__] exactly when
    their edge lists describe the same undirected edges: the order of
    the list, the orientation of a pair and repetitions play no part. *)
Theorem Construct_eq_iff (edges1 edges2 : list (Z * Z)) :
  result (__eq__ (Construct edges2)) (Construct edges1) = Ret true
  ↔ ∀ a b, ((a, b) ∈ edges1 ∨ (b, a) ∈ edges1)
           ↔ ((a, b) ∈ edges2 ∨ (b, a) ∈ edges2).
Proof.
  unfold result. rewrite eq_run. simpl. split.
  - intros [= [_ H]%bool_decide_eq_true%items_eq_iff]. intros a b.
    by rewrite <- !Construct_neighbor.
  - intros H. rewrite bool_decide_eq_true_2; [done|].
    apply items_eq_iff. split.
    + rewrite !Construct_nodes. apply set_eq. intros n.
      rewrite !elem_of_list_to_set, !elem_of_endpoints.
      split; intros [m Hm]; exists m.
      * destruct Hm as [Hm|Hm]; [apply (H n m)|apply or_comm, (H m n)]; auto.
      * destruct Hm as [Hm|Hm]; [apply (H n m)|apply or_comm, (H m n)]; auto.
    + intros a b. by rewrite !Construct_neighbor.
Qed.

(** ** Building a graph step by step *)

Lemma add_edge_keeps_listing edge g :
  all_nodes g = keys (adjacency_dict g) →
  all_nodes (exec (add_edge edge) g)
  = keys (adjacency_dict (exec (add_edge edge) g)).
Proof.
  intros H. rewrite exec_add_edge. by destruct (neighborb g edge.1 edge.2).
Qed.

Lemma Construct_fold edges :
  Construct edges = foldl (λ g e, exec (add_edge e) g) empty_graph edges.
Proof.
  rewrite Construct_run.
  set (g := foldl _ _ _).
  assert (all_nodes g = keys (adjacency_dict g)) as H.
  { apply (foldl_preserves (λ g, all_nodes g = keys (adjacency_dict g)));
      [|done]. intros g' e. apply add_edge_keeps_listing. }
  unfold exec, update_all_nodes, bind. simpl. rewrite <- H. by destruct g.
Qed.

(** X6. Adding edges one by one to a constructed graph leaves exactly
    the state that constructing from the whole list at once leaves:
    the same adjacency dictionary, key order and node list. *)
Theorem Construct_then_add_edges (edges more : list (Z * Z)) :
  for_each more add_edge (Construct edges)
  = (Ret tt, Construct (edges ++ more)).
Proof.
  rewrite for_each_run by (intros x g'; unfold result; by rewrite add_edge_run).
  by rewrite !Construct_fold, foldl_app.
Qed.

(** ** The order of the node list *)

Lemma first_seen_elem l x : x ∈ first_seen l ↔ x ∈ l.
Proof.
  induction l as [|y l IH]; simpl; [done|].
  rewrite !elem_of_cons, list_elem_of_filter, IH.
  destruct (decide (x = y)); naive_solver.
Qed.

Lemma first_seen_snoc l x : first_seen (l ++ [x]) = add_key x (first_seen l).
Proof.
  unfold add_key. induction l as [|y l IH]; simpl; [done|].
  rewrite IH. case_decide as Hx.
  - rewrite decide_True; [done|].
    rewrite elem_of_cons, list_elem_of_filter.
    destruct (decide (x = y)); tauto.
  - rewrite filter_app. destruct (decide (x = y)) as [->|Hne].
    + rewrite filter_cons_False by naive_solver. simpl. rewrite app_nil_r.
      rewrite decide_True; [done|by left].
    + rewrite filter_cons_True by done. simpl.
      rewrite decide_False; [done|].
      rewrite elem_of_cons, list_elem_of_filter. tauto.
Qed.

Lemma keys_dict_add_wf k x d :
  dict_wf d → keys (dict_add k x d) = add_key k (keys d).
Proof.
  intros [_ Hk]. rewrite keys_dict_add. unfold add_key.
  destruct (decide (k ∈ dom (items d))) as [H|H].
  - rewrite decide_True; [done|by apply Hk].
  - rewrite decide_False; [done|by rewrite Hk].
Qed.

Lemma add_edge_keys edge g :
  dict_wf (adjacency_dict g) → symmetric g →
  keys (adjacency_dict (exec (add_edge edge) g))
  = add_key edge.2 (add_key edge.1 (keys (adjacency_dict g))).
Proof.
  intros Hwf Hsym. rewrite exec_add_edge.
  destruct (neighborb g edge.1 edge.2) eqn:E.
  - apply neighborb_spec in E.
    pose proof (neighbor_node _ _ _ E) as H1.
    pose proof (neighbor_node _ _ _ (Hsym _ _ E)) as H2.
    destruct Hwf as [_ Hk]. unfold nodes in *.
    unfold add_key. rewrite (decide_True _ _ (proj2 (Hk _) H1)).
    by rewrite (decide_True _ _ (proj2 (Hk _) H2)).
  - simpl. rewrite !keys_dict_add_wf; [done|done|by apply dict_add_wf].
Qed.

Lemma add_edges_keys edges : ∀ g l,
  well_formed g → keys (adjacency_dict g) = first_seen l →
  keys (adjacency_dict (foldl (λ g' e, exec (add_edge e) g') g edges))
  = first_seen (l ++ endpoints edges).
Proof.
  induction edges as [|[u v] es IH]; intros g l Hwf Hl; simpl.
  - by rewrite app_nil_r.
  - rewrite (IH _ ((l ++ [u]) ++ [v])).
    + by rewrite <- !app_assoc.
    + by apply add_edge_well_formed.
    + rewrite (add_edge_keys (u, v)); [|apply Hwf..]. simpl.
      by rewrite !first_seen_snoc, Hl.
Qed.

(** X7. The node list of a constructed graph holds the endpoints of the
    edge list in the order in which they first occur, each once; this
    is the order in which iterating the new graph hands the nodes
    out. *)
Theorem Construct_node_order (edges : list (Z * Z)) (fuel : nat) :
  (length (endpoints edges) < fuel)%nat →
  all_nodes (Construct edges) = first_seen (endpoints edges)
  ∧ result (iterate fuel) (Construct edges)
    = Ret (first_seen (endpoints edges)).
Proof.
  intros Hfuel.
  assert (all_nodes (Construct edges) = first_seen (endpoints edges)) as H.
  { rewrite Construct_run. unfold exec at 1. simpl.
    by rewrite (add_edges_keys edges empty_graph [])
      by (apply empty_graph_well_formed || done). }
  split; [done|]. unfold result. rewrite iterate_run; [by rewrite H|].
  rewrite H. eapply Nat.le_lt_trans; [|exact Hfuel].
  clear. induction (endpoints edges) as [|x l IH]; simpl; [done|].
  pose proof (length_filter (λ y, y ≠ x) (first_seen l)). lia.
Qed.

Lemma Construct_node_order_witness :
  (length (endpoints [(6, 4); (4, 3); (4, 5); (3, 2)]%Z) < 9)%nat
  ∧ all_nodes (Construct [(6, 4); (4, 3); (4, 5); (3, 2)])
    = first_seen (endpoints [(6, 4); (4, 3); (4, 5); (3, 2)])
  ∧ result (iterate 9) (Construct [(6, 4); (4, 3); (4, 5); (3, 2)])
    = Ret (first_seen (endpoints [(6, 4); (4, 3); (4, 5); (3, 2)])).
Proof.
  assert (length (endpoints [(6, 4); (4, 3); (4, 5); (3, 2)]%Z) < 9)%nat as H
    by (simpl; lia).
  split; [exact H|].
  exact (Construct_node_order [(6, 4); (4, 3); (4, 5); (3, 2)] 9 H).
Defined.

(** ** Distances as a metric *)

Lemma walk_app g n m a b c :
  walk g n a b → walk g m b c → walk g (n + m) a c.
Proof.
  induction 1 as [a|n a b' b Hab _ IH]; intros Hbc; [done|].
  simpl. eapply walk_edge; [exact Hab|by apply IH].
Qed.

Lemma walk_one g a b : walk g 1 a b ↔ neighbor g a b.
Proof.
  split.
  - inversion 1 as [|? ? b' ? Hab Hw]; subst. by apply walk_zero in Hw as <-.
  - intros H. eapply walk_edge; [exact H|constructor].
Qed.

Section Metric.

Variable set_iter : gset Z → list Z.
Hypothesis set_iter_perm : ∀ s, set_iter s ≡ₚ elements s.

Lemma distance_spec fuel a b g :
  graph_inv g → a ∈ nodes g → b ∈ nodes g → (size (nodes g) ≤ fuel)%nat →
  ∃ d, distance set_iter fuel a b g = (Ret d, g)
       ∧ ((∃ j, d = Z.of_nat j ∧ shortest g a b j)
          ∨ (d = -1 ∧ ¬ reachable g a b)).
Proof.
  intros Hinv Ha Hb Hfuel. destruct (decide (a = b)) as [->|Hne].
  - exists 0. rewrite distance_present by done. rewrite decide_True by done.
    split; [done|]. left. exists 0%nat. split; [done|].
    split; [constructor|lia].
  - destruct (distance_correct set_iter set_iter_perm fuel a b g)
      as (_ & d & _ & _ & Hd & H); [done..|]. by exists d.
Qed.

(** X8. On a graph that satisfies the invariants of the data model and
    for two nodes of the graph, [distance] returns 0 exactly when the
    nodes are equal, 1 exactly when they are different and
    [is_edge_in_graph] holds of them, -1 exactly when there is no path
    between them, and never another negative number. *)
Theorem distance_values (g : Graph) (a b : Z) (fuel : nat) :
  graph_inv g → a ∈ nodes g → b ∈ nodes g → (size (nodes g) ≤ fuel)%nat →
  ∃ d, result (distance set_iter fuel a b) g = Ret d
       ∧ (d = -1 ∨ 0 ≤ d)
       ∧ (d = 0 ↔ a = b)
       ∧ (d = 1 ↔ a ≠ b ∧ result (is_edge_in_graph (a, b)) g = Ret true)
       ∧ (d = -1 ↔ ¬ reachable g a b).
Proof.
  intros Hinv Ha Hb Hfuel.
  destruct (distance_spec fuel a b g Hinv Ha Hb Hfuel) as (d & Hd & H).
  exists d. unfold result. rewrite Hd, is_edge_in_graph_run. simpl.
  split; [done|].
  assert (Ret (neighborb g a b) = Ret true ↔ neighbor g a b) as ->.
  { rewrite <- neighborb_spec. split; [by intros [=]|by intros ->]. }
  destruct H as [(j & -> & Hw & Hmin)|[-> Hun]].
  - split_and!.
    + lia.
    + split.
      * intros Hj. assert (j = 0%nat) as -> by lia. by apply walk_zero in Hw.
      * intros ->. specialize (Hmin 0%nat (walk_here _ _)). lia.
    + split.
      * intros Hj. assert (j = 1%nat) as -> by lia. split.
        -- intros ->. specialize (Hmin 0%nat (walk_here _ _)). lia.
        -- by apply walk_one.
      * intros [Hne Hn%walk_one]. specialize (Hmin _ Hn).
        destruct j as [|j]; [|lia]. by apply walk_zero in Hw.
    + split; [lia|]. intros []. by exists j.
  - split_and!.
    + by left.
    + split; [done|]. intros ->. destruct Hun. exists 0%nat. constructor.
    + split; [done|]. intros [_ Hn%walk_one]. destruct Hun. by exists 1%nat.
    + done.
Qed.

(** X9. Triangle inequality. On a graph that satisfies the invariants
    of the data model, when [distance] finds a path from [a] to [b]
    and one from [b] to [c], it finds one from [a] to [c], and the
    distance it returns is at most the sum of the other two. *)
Theorem distance_triangle (g : Graph) (a b c d1 d2 : Z) (fuel : nat) :
  graph_inv g → a ∈ nodes g → b ∈ nodes g → c ∈ nodes g →
  (size (nodes g) ≤ fuel)%nat →
  result (distance set_iter fuel a b) g = Ret d1 → 0 ≤ d1 →
  result (distance set_iter fuel b c) g = Ret d2 → 0 ≤ d2 →
  ∃ d3, result (distance set_iter fuel a c) g = Ret d3
        ∧ 0 ≤ d3 ≤ d1 + d2.
Proof.
  intros Hinv Ha Hb Hc Hfuel. unfold result.
  destruct (distance_spec fuel a b g Hinv Ha Hb Hfuel) as (? & -> & H1).
  destruct (distance_spec fuel b c g Hinv Hb Hc Hfuel) as (? & -> & H2).
  destruct (distance_spec fuel a c g Hinv Ha Hc Hfuel) as (d3 & -> & H3).
  simpl. intros [= ->] Hd1 [= ->] Hd2.
  destruct H1 as [(j1 & -> & Hw1 & _)|[-> _]]; [|lia].
  destruct H2 as [(j2 & -> & Hw2 & _)|[-> _]]; [|lia].
  exists d3. split; [done|].
  pose proof (walk_app _ _ _ _ _ _ Hw1 Hw2) as Hw.
  destruct H3 as [(j3 & -> & _ & Hmin)|[-> Hun]].
  - specialize (Hmin _ Hw). lia.
  - destruct Hun. by eexists.
Qed.

End Metric.

Lemma distance_values_witness :
  (∀ s : gset Z, elements s ≡ₚ elements s)
  ∧ graph_inv figure1
  ∧ 6 ∈ nodes figure1
  ∧ 4 ∈ nodes figure1
  ∧ (size (nodes figure1) ≤ 6)%nat
  ∧ ∃ d, result (distance elements 6 6 4) figure1 = Ret d
         ∧ (d = -1 ∨ 0 ≤ d)
         ∧ (d = 0 ↔ 6 = 4)
         ∧ (d = 1 ↔ 6 ≠ 4 ∧ result (is_edge_in_graph (6, 4)) figure1 = Ret true)
         ∧ (d = -1 ↔ ¬ reachable figure1 6 4).
Proof.
  assert (∀ s : gset Z, elements s ≡ₚ elements s) as H1 by reflexivity.
  assert (graph_inv figure1) as H2 by apply Construct_well_formed.
  assert (6 ∈ nodes figure1) as H3 by (rewrite figure1_nodes; set_solver).
  assert (4 ∈ nodes figure1) as H4 by (rewrite figure1_nodes; set_solver).
  assert (size (nodes figure1) ≤ 6)%nat as H5 by (vm_compute; lia).
  split_and!; [exact H1|exact H2|exact H3|exact H4|exact H5|].
  exact (distance_values elements H1 figure1 6 4 6%nat H2 H3 H4 H5).
Defined.

Lemma distance_triangle_witness :
  (∀ s : gset Z, elements s ≡ₚ elements s)
  ∧ graph_inv figure1
  ∧ 6 ∈ nodes figure1 ∧ 3 ∈ nodes figure1 ∧ 5 ∈ nodes figure1
  ∧ (size (nodes figure1) ≤ 6)%nat
  ∧ result (distance elements 6 6 3) figure1 = Ret 2 ∧ 0 ≤ 2
  ∧ result (distance elements 6 3 5) figure1 = Ret 2 ∧ 0 ≤ 2
  ∧ ∃ d3, result (distance elements 6 6 5) figure1 = Ret d3
          ∧ 0 ≤ d3 ≤ 2 + 2.
Proof.
  assert (∀ s : gset Z, elements s ≡ₚ elements s) as H1 by reflexivity.
  assert (graph_inv figure1) as H2 by apply Construct_well_formed.
  assert (6 ∈ nodes figure1) as H3 by (rewrite figure1_nodes; set_solver).
  assert (3 ∈ nodes figure1) as H4 by (rewrite figure1_nodes; set_solver).
  assert (5 ∈ nodes figure1) as H5 by (rewrite figure1_nodes; set_solver).
  assert (size (nodes figure1) ≤ 6)%nat as H6 by (vm_compute; lia).
  assert (result (distance elements 6 6 3) figure1 = Ret 2) as H7
    by (by vm_compute).
  assert (0 ≤ 2) as H8 by lia.
  assert (result (distance elements 6 3 5) figure1 = Ret 2) as H9
    by (by vm_compute).
  split_and!; [exact H1|exact H2|exact H3|exact H4|exact H5|exact H6
              |exact H7|exact H8|exact H9|exact H8|].
  exact (distance_triangle elements H1 figure1 6 3 5 2 2 6%nat
           H2 H3 H4 H5 H6 H7 H8 H9 H8).
Defined.

(** ** Distances across mutations *)

Lemma apply_mutation_neighbor_mono m g a b :
  neighbor g a b → neighbor (exec (apply_mutation m) g) a b.
Proof.
  destruct m as [e|n]; simpl; [apply add_edge_neighbor_mono|].
  intros H. rewrite exec_add_node. case_bool_decide; [done|].
  by apply with_node_neighbor.
Qed.

Lemma apply_mutation_nodes_mono m g n :
  n ∈ nodes g → n ∈ nodes (exec (apply_mutation m) g).
Proof.
  intros H. destruct m as [e|n']; simpl.
  - rewrite exec_add_edge. destruct (neighborb g e.1 e.2); [done|].
    rewrite with_edge_nodes. set_solver.
  - rewrite exec_add_node. case_bool_decide; [done|].
    rewrite with_node_nodes. set_solver.
Qed.

Lemma walk_neighbor_mono g g' n a b :
  (∀ x y, neighbor g x y → neighbor g' x y) → walk g n a b → walk g' n a b.
Proof.
  intros Hmono. induction 1 as [a|n a b c Hab _ IH]; [constructor|].
  eapply walk_edge; [by apply Hmono|done].
Qed.

Lemma exec_mutations ms g :
  exec (for_each ms apply_mutation) g
  = foldl (λ g' m, exec (apply_mutation m) g') g ms.
Proof. unfold exec at 1. by rewrite mutations_run. Qed.

Lemma apply_mutation_symmetric m g :
  symmetric g → symmetric (exec (apply_mutation m) g).
Proof.
  intros Hsym. destruct m as [e|n]; simpl; [by apply add_edge_symmetric|].
  rewrite exec_add_node. case_bool_decide; [done|].
  intros a b. rewrite !with_node_neighbor by done. apply Hsym.
Qed.

Section Composition.

Variable set_iter : gset Z → list Z.
Hypothesis set_iter_perm : ∀ s, set_iter s ≡ₚ elements s.

Lemma distance_of_walk fuel g a b n :
  symmetric g → a ∈ nodes g → b ∈ nodes g → (size (nodes g) ≤ fuel)%nat →
  walk g n a b →
  ∃ j, distance set_iter fuel a b g = (Ret (Z.of_nat j), g)
       ∧ shortest g a b j.
Proof.
  intros Hsym Ha Hb Hfuel Hw. destruct (decide (a = b)) as [->|Hne].
  - exists 0%nat. rewrite distance_present by done.
    rewrite decide_True by done. split; [done|]. split; [constructor|lia].
  - destruct (distance_on_symmetric set_iter set_iter_perm fuel a b g)
      as [H _]; [done..|]. apply H. by exists n.
Qed.

Lemma distance_found fuel g a b d :
  symmetric g → a ∈ nodes g → b ∈ nodes g → (size (nodes g) ≤ fuel)%nat →
  result (distance set_iter fuel a b) g = Ret d → 0 ≤ d →
  ∃ j, d = Z.of_nat j ∧ shortest g a b j.
Proof.
  intros Hsym Ha Hb Hfuel. unfold result.
  destruct (decide (a = b)) as [->|Hne].
  - rewrite distance_present by done. rewrite decide_True by done.
    intros [= <-] _. exists 0%nat. split; [done|]. split; [constructor|lia].
  - destruct (bfs_on_symmetric set_iter set_iter_perm fuel a g Hsym Ha Hfuel)
      as (_ & seen & _ & Hseen & _).
    destruct (distance_on_symmetric set_iter set_iter_perm fuel a b g)
      as [Hyes Hno]; [done..|].
    destruct (decide (b ∈ seen)) as [Hr%Hseen|Hr].
    + destruct (Hyes Hr) as (j & -> & Hsh). intros [= <-] _. by exists j.
    + rewrite Hseen in Hr. rewrite (Hno Hr). case_decide; [|done].
      intros [= <-]. lia.
Qed.

(** X10. Mutation never lengthens a path. On a graph with symmetric
    adjacency, after any sequence of [add_edge] and [add_node] calls
    two nodes for which [distance] returned a path length still get
    one, and it is at most the old one. *)
Theorem mutations_never_lengthen
    (g : Graph) (ms : list mutation) (a b d : Z) (fuel fuel' : nat) :
  let g' := exec (for_each ms apply_mutation) g in
  symmetric g → a ∈ nodes g → b ∈ nodes g →
  (size (nodes g) ≤ fuel)%nat → (size (nodes g') ≤ fuel')%nat →
  result (distance set_iter fuel a b) g = Ret d → 0 ≤ d →
  ∃ d', result (distance set_iter fuel' a b) g' = Ret d' ∧ 0 ≤ d' ≤ d.
Proof.
  intros g' Hsym Ha Hb Hfuel Hfuel' Hd Hpos.
  assert (symmetric g') as Hsym'.
  { subst g'. rewrite exec_mutations.
    apply (foldl_preserves symmetric); [|done].
    intros g0 m. apply apply_mutation_symmetric. }
  assert (∀ n, n ∈ nodes g → n ∈ nodes g') as Hnodes.
  { intros n. subst g'. rewrite exec_mutations.
    apply (foldl_preserves (λ g0, n ∈ nodes g0)).
    intros g0 m. apply apply_mutation_nodes_mono. }
  assert (∀ x y, neighbor g x y → neighbor g' x y) as Hmono.
  { intros x y. subst g'. rewrite exec_mutations.
    apply (foldl_preserves (λ g0, neighbor g0 x y)).
    intros g0 m. apply apply_mutation_neighbor_mono. }
  destruct (distance_found fuel g a b d Hsym Ha Hb Hfuel Hd Hpos)
    as (j & -> & Hw & _).
  apply (walk_neighbor_mono g g') in Hw; [|done].
  destruct (distance_of_walk fuel' g' a b j Hsym' (Hnodes _ Ha) (Hnodes _ Hb)
              Hfuel' Hw) as (j' & Hd' & _ & Hmin).
  exists (Z.of_nat j'). unfold result. rewrite Hd'. split; [done|].
  specialize (Hmin _ Hw). lia.
Qed.

(** X11. After [add_edge (u, v)] with two different nodes, on a graph
    with symmetric adjacency, [distance] between [u] and [v] is 1. *)
Theorem add_edge_distance_one (g : Graph) (u v : Z) (fuel : nat) :
  let g' := exec (add_edge (u, v)) g in
  symmetric g → u ≠ v → (size (nodes g') ≤ fuel)%nat →
  result (distance set_iter fuel u v) g' = Ret 1.
Proof.
  intros g' Hsym Hne Hfuel.
  assert (symmetric g') as Hsym' by (by apply add_edge_symmetric).
  destruct (add_edge_adds (u, v) g Hsym) as [Huv Hvu]. simpl in *.
  fold g' in Huv, Hvu.
  destruct (distance_of_walk fuel g' u v 1 Hsym') as (j & Hd & Hw & Hmin);
    [by eapply neighbor_node..|done|by apply walk_one|].
  unfold result. rewrite Hd. simpl. f_equal.
  specialize (Hmin 1%nat (proj2 (walk_one _ _ _) Huv)).
  destruct j as [|[|j]]; [|done|lia]. by apply walk_zero in Hw.
Qed.

(** X12. [add_node] with a node the graph did not have rebuilds the
    node list, whatever earlier [__next__] calls took from it, and the
    new node is cut off: the invariants of the data model hold again,
    and [distance] between the new node and every other node of the
    graph is -1 in both directions. *)
Theorem add_node_isolated (g : Graph) (new_node a : Z) (fuel : nat) :
  let g' := exec (add_node new_node) g in
  api_inv g → new_node ∉ nodes g → a ∈ nodes g →
  (size (nodes g') ≤ fuel)%nat →
  graph_inv g'
  ∧ result (distance set_iter fuel new_node a) g' = Ret (-1)
  ∧ result (distance set_iter fuel a new_node) g' = Ret (-1).
Proof.
  intros g' Hapi Hnew Ha Hfuel.
  assert (g' = with_node new_node g) as Hg'.
  { subst g'. rewrite exec_add_node. by rewrite bool_decide_eq_false_2. }
  assert (graph_inv g') as Hinv'.
  { rewrite Hg'. destruct (with_node_api_inv new_node g Hnew Hapi)
      as (Hwf & Hsym & _). split; [done|]. exact Hwf. }
  assert (new_node ∈ nodes g' ∧ a ∈ nodes g') as [Hn' Ha'].
  { rewrite Hg', with_node_nodes. set_solver. }
  assert (¬ reachable g' new_node a) as Hun.
  { intros [k Hw]. inversion Hw as [|? ? b ? Hnb _]; subst; [done|].
    rewrite Hg' in Hnb. apply with_node_neighbor in Hnb; [|done].
    by apply neighbor_node in Hnb. }
  assert (¬ reachable g' a new_node) as Hun'.
  { intros [k Hw]. apply Hun. exists k. apply walk_reverse; [apply Hinv'|done]. }
  split; [done|]. unfold result.
  destruct (distance_spec set_iter set_iter_perm fuel new_node a g')
    as (d1 & -> & H1); [done..|].
  destruct (distance_spec set_iter set_iter_perm fuel a new_node g')
    as (d2 & -> & H2); [done..|].
  simpl.
  destruct H1 as [(j1 & _ & Hw1 & _)|[-> _]]; [destruct Hun; by exists j1|].
  destruct H2 as [(j2 & _ & Hw2 & _)|[-> _]]; [destruct Hun'; by exists j2|].
  done.
Qed.

End Composition.

(** X13. [add_edge] with an edge the graph did not have rebuilds the
    node list, whatever earlier [__next__] calls took from it: the
    invariants of the data model hold again after the call. With an
    edge the graph has already, the call changes nothing, so a node
    list that iteration has shortened stays short. *)
Theorem add_edge_rebuilds_node_list (g : Graph) (edge : Z * Z) :
  api_inv g →
  (result (is_edge_in_graph edge) g = Ret false →
   graph_inv (exec (add_edge edge) g))
  ∧ (result (is_edge_in_graph edge) g = Ret true →
     exec (add_edge edge) g = g).
Proof.
  intros Hapi. unfold result. rewrite is_edge_in_graph_run, exec_add_edge.
  simpl. split; intros [= ->]; [|done].
  destruct (with_edge_api_inv edge g Hapi) as (Hwf & Hsym & _).
  split; [done|]. exact Hwf.
Qed.

Lemma consumed_graph_api_inv : api_inv consumed_graph.
Proof.
  apply (after_calls_api_inv elements (λ s, reflexivity _)
           [(1, 2)] [Call_next]).
Qed.

Lemma consumed_graph_nodes :
  nodes consumed_graph = {[1; 2]}.
Proof. by vm_compute. Qed.

Lemma mutations_never_lengthen_witness :
  symmetric figure1
  ∧ 6 ∈ nodes figure1
  ∧ 1 ∈ nodes figure1
  ∧ (size (nodes figure1) ≤ 6)%nat
  ∧ (size (nodes (exec (for_each [AddEdge (6, 1)%Z] apply_mutation) figure1))
     ≤ 6)%nat
  ∧ result (distance elements 6 6 1) figure1 = Ret 3
  ∧ 0 ≤ 3
  ∧ ∃ d', result (distance elements 6 6 1)
                 (exec (for_each [AddEdge (6, 1)] apply_mutation) figure1)
          = Ret d'
          ∧ 0 ≤ d' ≤ 3.
Proof.
  assert (symmetric figure1) as H1 by apply Construct_well_formed.
  assert (6 ∈ nodes figure1) as H2 by (rewrite figure1_nodes; set_solver).
  assert (1 ∈ nodes figure1) as H3 by (rewrite figure1_nodes; set_solver).
  assert (size (nodes figure1) ≤ 6)%nat as H4 by (vm_compute; lia).
  assert (size (nodes (exec (for_each [AddEdge (6, 1)%Z] apply_mutation)
                         figure1)) ≤ 6)%nat as H5 by (vm_compute; lia).
  assert (result (distance elements 6 6 1) figure1 = Ret 3) as H6
    by (by vm_compute).
  assert (0 ≤ 3) as H7 by lia.
  split_and!; [exact H1|exact H2|exact H3|exact H4|exact H5|exact H6|exact H7|].
  exact (mutations_never_lengthen elements (λ s, reflexivity _) figure1
           [AddEdge (6, 1)] 6 1 3 6%nat 6%nat H1 H2 H3 H4 H5 H6 H7).
Defined.

Lemma add_edge_distance_one_witness :
  symmetric figure1
  ∧ 6 ≠ 1
  ∧ (size (nodes (exec (add_edge (6, 1)%Z) figure1)) ≤ 6)%nat
  ∧ result (distance elements 6 6 1) (exec (add_edge (6, 1)) figure1) = Ret 1.
Proof.
  assert (symmetric figure1) as H1 by apply Construct_well_formed.
  assert (6 ≠ 1) as H2 by lia.
  assert (size (nodes (exec (add_edge (6, 1)%Z) figure1)) ≤ 6)%nat as H3
    by (vm_compute; lia).
  split_and!; [exact H1|exact H2|exact H3|].
  exact (add_edge_distance_one elements (λ s, reflexivity _) figure1 6 1 6%nat
           H1 H2 H3).
Defined.

Lemma add_node_isolated_witness :
  api_inv consumed_graph
  ∧ (3 ∉ nodes consumed_graph)
  ∧ 1 ∈ nodes consumed_graph
  ∧ (size (nodes (exec (add_node 3%Z) consumed_graph))
     ≤ 3)%nat
  ∧ graph_inv (exec (add_node 3) consumed_graph)
  ∧ result (distance elements 3 3 1)
           (exec (add_node 3) consumed_graph)
    = Ret (-1)
  ∧ result (distance elements 3 1 3)
           (exec (add_node 3) consumed_graph)
    = Ret (-1).
Proof.
  pose proof consumed_graph_api_inv as H1.
  assert (3 ∉ nodes consumed_graph) as H2
    by (rewrite consumed_graph_nodes; set_solver).
  assert (1 ∈ nodes consumed_graph) as H3
    by (rewrite consumed_graph_nodes; set_solver).
  assert (size (nodes (exec (add_node 3%Z) consumed_graph))
          ≤ 3)%nat as H4 by (vm_compute; lia).
  split_and!; [exact H1|exact H2|exact H3|exact H4|..];
    apply (add_node_isolated elements (λ s, reflexivity _)
             consumed_graph 3 1 3%nat H1 H2 H3 H4).
Defined.

Lemma add_edge_rebuilds_node_list_witness :
  api_inv consumed_graph
  ∧ (result (is_edge_in_graph (1, 3)) consumed_graph
     = Ret false →
     graph_inv (exec (add_edge (1, 3)) consumed_graph))
  ∧ (result (is_edge_in_graph (1, 3)) consumed_graph
     = Ret true →
     exec (add_edge (1, 3)) consumed_graph
     = exec __next__ (Construct [(1, 2)])).
Proof.
  pose proof consumed_graph_api_inv as H1.
  split; [exact H1|].
  exact (add_edge_rebuilds_node_list consumed_graph
           (1, 3) H1).
Defined.

(** ** The traversal on any state the methods can reach *)

Lemma filter_eq_NoDup (l : list Z) v :
  NoDup l → filter (λ n, n = v) l = if decide (v ∈ l) then [v] else [].
Proof.
  induction 1 as [|x l Hx Hnd IH]; [done|].
  destruct (decide (x = v)) as [->|Hne].
  - rewrite filter_cons_True by done. rewrite decide_True by (by left).
    rewrite IH, decide_False; done.
  - rewrite filter_cons_False by done. rewrite IH.
    destruct (decide (v ∈ l)) as [Hv|Hv].
    + rewrite decide_True; [done|by right].
    + rewrite decide_False; [done|]. rewrite elem_of_cons. naive_solver.
Qed.

Section Anywhere.

Variable set_iter : gset Z → list Z.
Hypothesis set_iter_perm : ∀ s, set_iter s ≡ₚ elements s.

(** X14. After any sequence of public calls on a constructed graph,
    iteration steps included, [bfs] raises [ValueError] for a start
    node that is not in the graph and nothing else; for a start node
    of the graph it returns, leaves the graph as it is, has no entry
    for the start node, exactly one entry for each node that can be
    reached, with its shortest distance, which is at least 1, and for
    a node that cannot be reached one entry with -1 if [all_nodes]
    still lists the node and none if it does not. *)
Theorem bfs_after_calls
    (edges : list (Z * Z)) (cs : list call) (start_node : Z) (fuel : nat) :
  let g := after_calls set_iter cs (Construct edges) in
  (size (nodes g) ≤ fuel)%nat →
  (start_node ∉ nodes g →
   bfs set_iter fuel start_node g
   = (Raise (ValueError "Node not in graph!"), g))
  ∧ (start_node ∈ nodes g →
     ∃ pairs,
       bfs set_iter fuel start_node g = (Ret pairs, g)
       ∧ pairs_of start_node pairs = []
       ∧ (∀ v, v ≠ start_node → reachable g start_node v →
               ∃ j, pairs_of v pairs = [(v, Z.of_nat j)]
                    ∧ (1 ≤ j)%nat ∧ shortest g start_node v j)
       ∧ (∀ v, ¬ reachable g start_node v →
               pairs_of v pairs
               = if decide (v ∈ all_nodes g) then [(v, -1)] else [])).
Proof.
  intros g Hfuel. split; [apply bfs_absent|]. intros Hstart.
  pose proof (after_calls_api_inv set_iter set_iter_perm edges cs) as Hapi.
  fold g in Hapi. destruct (api_inv_nodes_listed g Hapi) as [Hnd _].
  destruct Hapi as (_ & Hsym & _).
  destruct (bfs_on_symmetric set_iter set_iter_perm fuel start_node g
              Hsym Hstart Hfuel)
    as (found & seen & Hrun & Hseen & Hpnd & Hp & Hpd).
  assert (start_node ∈ seen) as Hs0 by (apply Hseen; exists 0%nat; constructor).
  assert (∀ v, v ∈ seen →
            pairs_of v (map (λ node, (node, -1))
                         (filter (λ node, node ∉ seen) (all_nodes g))) = [])
    as Htail.
  { intros v Hv. apply pairs_of_absent.
    rewrite <- list_fmap_compose, list_fmap_id, list_elem_of_filter. tauto. }
  eexists. split; [exact Hrun|]. split_and!.
  - rewrite pairs_of_app, Htail by done.
    rewrite pairs_of_absent; [done|]. rewrite Hp. tauto.
  - intros v Hne Hr%Hseen. rewrite pairs_of_app, Htail, app_nil_r by done.
    destruct (pairs_of_unique v found Hpnd) as (d & -> & Hd); [by apply Hp|].
    destruct (Hpd _ _ Hd) as (j & -> & Hsh). exists j.
    split; [done|]. split; [|done].
    destruct j as [|j]; [|lia]. destruct Hsh as [Hw _].
    by apply walk_zero in Hw.
  - intros v Hr. rewrite <- Hseen in Hr.
    rewrite pairs_of_app, pairs_of_absent by (rewrite Hp; tauto). simpl.
    rewrite pairs_of_unreached, list_filter_filter.
    rewrite (list_filter_iff _ (λ n, n = v)) by (intros x; naive_solver).
    rewrite filter_eq_NoDup by done. by case_decide.
Qed.

Lemma after_call_query_items c g :
  symmetric g → is_query c = true →
  adjacency_dict (after_call set_iter c g) = adjacency_dict g.
Proof.
  intros Hsym Hq. destruct c; cbn [after_call is_query] in *; try done.
  - unfold exec. rewrite next_run. by destruct (all_nodes g).
  - unfold exec. by rewrite is_edge_in_graph_run.
  - unfold exec. rewrite getitem_run.
    by destruct (items (adjacency_dict g) !! node).
  - by rewrite bfs_state.
  - by rewrite distance_state.
Qed.

(** X15. Calls other than [add_edge] and [add_node] never change the
    adjacency dictionary of a graph with symmetric adjacency; so after
    any number of queries, traversals and [__next__] calls the graph
    still compares equal, by [__eq__], to what it was, also when the
    iteration has emptied its node list. *)
Theorem queries_keep_equality (g : Graph) (cs : list call) :
  symmetric g → forallb is_query cs = true →
  adjacency_dict (after_calls set_iter cs g) = adjacency_dict g
  ∧ result (__eq__ g) (after_calls set_iter cs g) = Ret true.
Proof.
  intros Hsym Hq.
  assert (adjacency_dict (after_calls set_iter cs g) = adjacency_dict g) as H.
  { revert g Hsym. induction cs as [|c cs IH]; intros g Hsym; [done|].
    cbn [forallb] in Hq. apply andb_prop in Hq as [Hc Hcs].
    pose proof (after_call_query_items c g Hsym Hc) as Hc'.
    change (after_calls set_iter (c :: cs) g)
      with (after_calls set_iter cs (after_call set_iter c g)).
    rewrite IH; [done|done|].
    intros a b. unfold neighbor. rewrite Hc'. apply Hsym. }
  split; [done|]. unfold result. rewrite eq_run, H. simpl.
  by rewrite bool_decide_eq_true_2.
Qed.

End Anywhere.

Lemma bfs_after_calls_witness :
  (∀ s : gset Z, elements s ≡ₚ elements s)
  ∧ (let g := after_calls elements [Call_add_node 3; Call_next]
                (Construct [(1, 2)]) in
     (size (nodes g) ≤ 3)%nat
     ∧ (2 ∉ nodes g →
        bfs elements 3 2 g = (Raise (ValueError "Node not in graph!"), g))
     ∧ (2 ∈ nodes g →
        ∃ pairs,
          bfs elements 3 2 g = (Ret pairs, g)
          ∧ pairs_of 2 pairs = []
          ∧ (∀ v, v ≠ 2 → reachable g 2 v →
                  ∃ j, pairs_of v pairs = [(v, Z.of_nat j)]
                       ∧ (1 ≤ j)%nat ∧ shortest g 2 v j)
          ∧ (∀ v, ¬ reachable g 2 v →
                  pairs_of v pairs
                  = if decide (v ∈ all_nodes g) then [(v, -1)] else []))).
Proof.
  assert (∀ s : gset Z, elements s ≡ₚ elements s) as H1 by reflexivity.
  split; [exact H1|]. intros g.
  assert (size (nodes g) ≤ 3)%nat as H2 by (vm_compute; lia).
  split; [exact H2|].
  exact (bfs_after_calls elements H1 [(1, 2)] [Call_add_node 3; Call_next]
           2 3%nat H2).
Defined.

Lemma queries_keep_equality_witness :
  (∀ s : gset Z, elements s ≡ₚ elements s)
  ∧ symmetric figure1
  ∧ forallb is_query [Call_next; Call_bfs 6 6; Call_next; Call_distance 6 6 1]
    = true
  ∧ adjacency_dict
      (after_calls elements
         [Call_next; Call_bfs 6 6; Call_next; Call_distance 6 6 1] figure1)
    = adjacency_dict figure1
  ∧ result (__eq__ figure1)
      (after_calls elements
         [Call_next; Call_bfs 6 6; Call_next; Call_distance 6 6 1] figure1)
    = Ret true.
Proof.
  assert (∀ s : gset Z, elements s ≡ₚ elements s) as H1 by reflexivity.
  assert (symmetric figure1) as H2 by apply Construct_well_formed.
  assert (forallb is_query
            [Call_next; Call_bfs 6 6; Call_next; Call_distance 6 6 1] = true)
    as H3 by reflexivity.
  split_and!; [exact H1|exact H2|exact H3|..];
    apply (queries_keep_equality elements H1 figure1
             [Call_next; Call_bfs 6 6; Call_next; Call_distance 6 6 1] H2 H3).
Defined.

(** ** The order of the pairs and the size of the distances *)

Lemma StronglySorted_const (l : list Z) c :
  Forall (λ d, d = c) l → StronglySorted Z.le l.
Proof.
  induction 1 as [|x l -> Hl IH]; constructor; [done|].
  eapply Forall_impl; [exact Hl|]. simpl. intros; lia.
Qed.

Section Order.

Variable set_iter : gset Z → list Z.
Hypothesis set_iter_perm : ∀ s, set_iter s ≡ₚ elements s.

Lemma level_step_sorted g start_node k f f' g' :
  symmetric g → start_node ∈ nodes g →
  level_inv g start_node k f → levels_sorted f →
  bfs_for set_iter (length (queue f))
    (Frame (distance_pairs f) (cur_distance f + 1) (queue f) (seen_nodes f)) g
  = (Ret f', g') →
  levels_sorted f'.
Proof.
  intros Hsym Hstart Hinv [Hsorted Hle] Hrun.
  destruct (bfs_for_run set_iter set_iter_perm g (queue f) []
              (Frame (distance_pairs f) (cur_distance f + 1) (queue f)
                     (seen_nodes f)))
    as (f2 & Hrun2 & Hd & new & _ & Hp & _).
  { simpl. by rewrite app_nil_r. }
  { destruct Hinv as (_ & _ & _ & _ & Hq & _).
    intros u [Hw _]%Hq. by eapply walk_nodes. }
  rewrite Hrun2 in Hrun. injection Hrun as <- <-. simpl in *.
  unfold levels_sorted. rewrite Hp, Hd, fmap_app.
  rewrite <- list_fmap_compose.
  assert (Forall (λ d, d = cur_distance f + 1)
            ((snd ∘ (λ v : Z, (v, cur_distance f + 1))) <$> new)) as Hnew.
  { apply Forall_fmap, Forall_forall. by intros. }
  split.
  - apply StronglySorted_app. split_and!; [|done|].
    + intros x1 x2 Hx1 Hx2. rewrite Forall_forall in Hle, Hnew.
      specialize (Hle _ Hx1). specialize (Hnew _ Hx2). lia.
    + by eapply StronglySorted_const.
  - apply Forall_app. split.
    + eapply Forall_impl; [exact Hle|]. simpl. intros; lia.
    + eapply Forall_impl; [exact Hnew|]. simpl. intros; lia.
Qed.

Lemma bfs_while_shape g start_node fuel : ∀ k f,
  symmetric g → start_node ∈ nodes g →
  level_inv g start_node k f → levels_sorted f →
  queue f = [] ∨ (size (nodes g ∖ seen_nodes f) < fuel)%nat →
  ∃ f' k',
    bfs_while set_iter fuel f g = (Ret f', g)
    ∧ level_inv g start_node k' f'
    ∧ queue f' = []
    ∧ levels_sorted f'
    ∧ (k' ≤ k + fuel)%nat.
Proof.
  intros k f Hsym Hstart. revert k f.
  induction fuel as [|fuel IH]; intros k f Hinv Hsorted Hfuel.
  - destruct Hfuel as [Hq|?]; [|lia]. exists f, k. simpl. rewrite Hq.
    split_and!; [done..|lia].
  - destruct (queue f) as [|u q] eqn:Hq.
    { exists f, k. simpl. rewrite Hq. split_and!; [done..|lia]. }
    destruct Hfuel as [?|Hfuel]; [done|].
    destruct (level_step set_iter set_iter_perm g start_node Hsym Hstart
                k f Hinv) as (f2 & Hrun & Hinv2 & Hprog).
    pose proof (level_step_sorted g start_node k f f2 g Hsym Hstart Hinv
                  Hsorted Hrun) as Hsorted2.
    destruct (IH (S k) f2 Hinv2 Hsorted2) as (f' & k' & Hrun' & Hinv' & Hq' & Hs' & Hk').
    { destruct Hprog as [?|?]; [by left|right; lia]. }
    exists f', k'. split_and!; [|done..|lia].
    simpl. rewrite Hq. rewrite <- Hq. unfold bind. by rewrite Hrun.
Qed.

Lemma levels_sorted_start start_node :
  levels_sorted (Frame [] 0 [start_node] {[start_node]}).
Proof. split; constructor. Qed.

Lemma shortest_lt_size g a b j :
  symmetric g → a ∈ nodes g → shortest g a b j → (j < size (nodes g))%nat.
Proof.
  intros Hsym Ha Hsh.
  destruct (bfs_while_shape g a (size (nodes g)) 0 _ Hsym Ha
              (level_inv_start g a) (levels_sorted_start a))
    as (f & k & _ & Hinv & Hq & _ & Hk).
  { right. simpl. apply subset_size. set_solver. }
  assert (b ∈ seen_nodes f) as Hb
    by (eapply level_inv_final; [done..|apply Hsh]).
  destruct Hinv as (_ & Hs1 & _ & _ & Hqueue & _).
  destruct (Hs1 b Hb) as (j' & Hj' & Hsh').
  assert (j' = j) as -> by (by eapply shortest_unique).
  destruct (decide (j = k)) as [->|Hne]; [|lia].
  apply Hqueue in Hsh. rewrite Hq in Hsh. by apply elem_of_nil in Hsh.
Qed.

(** X16. On a graph with symmetric adjacency, the list [bfs] returns
    for a start node of the graph has two parts: first the nodes that
    can be reached, in ascending order of distance, each distance at
    least 1 and less than the number of nodes; then, each with -1, the
    entries of [all_nodes] that cannot be reached, in the order of
    [all_nodes]. *)
Theorem bfs_result_order (g : Graph) (start_node : Z) (fuel : nat) :
  symmetric g → start_node ∈ nodes g → (size (nodes g) ≤ fuel)%nat →
  ∃ (found : list (Z * Z)) (seen : gset Z),
    result (bfs set_iter fuel start_node) g
    = Ret (found ++ map (λ node, (node, -1))
                        (filter (λ node, node ∉ seen) (all_nodes g)))
    ∧ (∀ v, v ∈ seen ↔ reachable g start_node v)
    ∧ (∀ v, v ∈ found.*1 ↔ v ∈ seen ∧ v ≠ start_node)
    ∧ StronglySorted Z.le found.*2
    ∧ Forall (λ d, 1 ≤ d < Z.of_nat (size (nodes g))) found.*2.
Proof.
  intros Hsym Hstart Hfuel.
  destruct (bfs_while_shape g start_node fuel 0 _ Hsym Hstart
              (level_inv_start g start_node) (levels_sorted_start start_node))
    as (f & k & Hrun & Hinv & Hq & [Hsorted _] & _).
  { right. simpl. eapply Nat.lt_le_trans; [|exact Hfuel].
    apply subset_size. set_solver. }
  exists (distance_pairs f), (seen_nodes f). unfold result.
  rewrite bfs_present, Hrun by done. simpl. split; [done|].
  split.
  { intros v. split.
    - destruct Hinv as (_ & Hs1 & _). intros (j & _ & Hw & _)%Hs1. by exists j.
    - intros [m Hw]. by eapply level_inv_final. }
  destruct Hinv as (_ & _ & _ & _ & _ & _ & Hp & Hpd).
  split; [done|]. split; [done|].
  apply Forall_fmap, Forall_forall. intros [v d] Hin. simpl.
  destruct (Hpd _ _ Hin) as (j & -> & Hsh).
  pose proof (shortest_lt_size g start_node v j Hsym Hstart Hsh).
  destruct j as [|j]; [|lia]. destruct Hsh as [Hw _].
  apply walk_zero in Hw as <-.
  assert (start_node ∈ (distance_pairs f).*1) as Hc
    by (apply list_elem_of_fmap; by exists (start_node, Z.of_nat 0)).
  apply Hp in Hc. tauto.
Qed.

(** X17. On a graph with symmetric adjacency, every number [distance]
    returns for two nodes of the graph is at least -1 and less than the
    number of nodes. *)
Theorem distance_bounded (g : Graph) (a b d : Z) (fuel : nat) :
  symmetric g → a ∈ nodes g → b ∈ nodes g → (size (nodes g) ≤ fuel)%nat →
  result (distance set_iter fuel a b) g = Ret d →
  -1 ≤ d < Z.of_nat (size (nodes g)).
Proof.
  intros Hsym Ha Hb Hfuel Hd.
  destruct (decide (0 ≤ d)) as [Hpos|Hneg].
  - destruct (distance_found set_iter set_iter_perm fuel g a b d
                Hsym Ha Hb Hfuel Hd Hpos) as (j & -> & Hsh).
    pose proof (shortest_lt_size g a b j Hsym Ha Hsh). lia.
  - split; [|lia]. unfold result in Hd.
    destruct (decide (a = b)) as [->|Hne].
    + rewrite distance_present, decide_True in Hd by done.
      injection Hd as <-. lia.
    + destruct (bfs_on_symmetric set_iter set_iter_perm fuel a g Hsym Ha Hfuel)
        as (_ & seen & _ & Hseen & _).
      destruct (distance_on_symmetric set_iter set_iter_perm fuel a b g)
        as [Hyes Hno]; [done..|].
      destruct (decide (b ∈ seen)) as [Hr%Hseen|Hr].
      * destruct (Hyes Hr) as (j & Hj & _). rewrite Hj in Hd.
        injection Hd as <-. lia.
      * rewrite Hseen in Hr. rewrite (Hno Hr) in Hd.
        case_decide; [|done]. injection Hd as <-. lia.
Qed.

End Order.

Lemma bfs_result_order_witness :
  (∀ s : gset Z, elements s ≡ₚ elements s)
  ∧ symmetric figure1
  ∧ 6 ∈ nodes figure1
  ∧ (size (nodes figure1) ≤ 6)%nat
  ∧ ∃ (found : list (Z * Z)) (seen : gset Z),
      result (bfs elements 6 6) figure1
      = Ret (found ++ map (λ node, (node, -1))
                          (filter (λ node, node ∉ seen) (all_nodes figure1)))
      ∧ (∀ v, v ∈ seen ↔ reachable figure1 6 v)
      ∧ (∀ v, v ∈ found.*1 ↔ v ∈ seen ∧ v ≠ 6)
      ∧ StronglySorted Z.le found.*2
      ∧ Forall (λ d, 1 ≤ d < Z.of_nat (size (nodes figure1))) found.*2.
Proof.
  assert (∀ s : gset Z, elements s ≡ₚ elements s) as H1 by reflexivity.
  assert (symmetric figure1) as H2 by apply Construct_well_formed.
  assert (6 ∈ nodes figure1) as H3 by (rewrite figure1_nodes; set_solver).
  assert (size (nodes figure1) ≤ 6)%nat as H4 by (vm_compute; lia).
  split_and!; [exact H1|exact H2|exact H3|exact H4|].
  exact (bfs_result_order elements H1 figure1 6 6%nat H2 H3 H4).
Defined.

Lemma distance_bounded_witness :
  (∀ s : gset Z, elements s ≡ₚ elements s)
  ∧ symmetric figure1
  ∧ 6 ∈ nodes figure1
  ∧ 1 ∈ nodes figure1
  ∧ (size (nodes figure1) ≤ 6)%nat
  ∧ result (distance elements 6 6 1) figure1 = Ret 3
  ∧ -1 ≤ 3 < Z.of_nat (size (nodes figure1)).
Proof.
  assert (∀ s : gset Z, elements s ≡ₚ elements s) as H1 by reflexivity.
  assert (symmetric figure1) as H2 by apply Construct_well_formed.
  assert (6 ∈ nodes figure1) as H3 by (rewrite figure1_nodes; set_solver).
  assert (1 ∈ nodes figure1) as H4 by (rewrite figure1_nodes; set_solver).
  assert (size (nodes figure1) ≤ 6)%nat as H5 by (vm_compute; lia).
  assert (result (distance elements 6 6 1) figure1 = Ret 3) as H6
    by (by vm_compute).
  split_and!; [exact H1|exact H2|exact H3|exact H4|exact H5|exact H6|..];
    apply (distance_bounded elements H1 figure1 6 1 3 6%nat H2 H3 H4 H5 H6).
Defined.

(** ** The helper of the test suite *)

Lemma check_and_undo_missing new_edge original index node g :
  items (adjacency_dict g) !! node = None →
  check_and_undo new_edge original (index, node) g
  = (Failed AssertionError, g).
Proof.
  intros Hn. unfold check_and_undo, tbind, on_graph, get_adjacency. simpl.
  unfold dict_contains. by rewrite Hn, bool_decide_eq_false_2 by (by intros [??]).
Qed.

Lemma check_and_undo_unpaired new_edge original index node g s :
  items (adjacency_dict g) !! node = Some s →
  edge_item new_edge (match index with O => 1%nat | _ => O end) ∉ s →
  check_and_undo new_edge original (index, node) g
  = (Failed AssertionError, g).
Proof.
  intros Hn Hp. unfold check_and_undo, tbind, on_graph at 1, get_adjacency.
  simpl. unfold dict_contains. rewrite Hn, bool_decide_eq_true_2 by eauto.
  simpl. unfold on_graph. rewrite (adjacency_getitem_present _ _ _ Hn).
  by rewrite bool_decide_eq_false_2.
Qed.

Lemma check_and_undo_paired new_edge original index node g s :
  items (adjacency_dict g) !! node = Some s →
  edge_item new_edge (match index with O => 1%nat | _ => O end) ∈ s →
  ∃ g',
    check_and_undo new_edge original (index, node) g = (Done tt, g')
    ∧ items (adjacency_dict g')
      = if decide (node ∈ nodes original)
        then <[node := s ∖ {[edge_item new_edge
                               (match index with O => 1%nat | _ => O end)]}]>
               (items (adjacency_dict g))
        else delete node (items (adjacency_dict g)).
Proof.
  intros Hn Hp. unfold check_and_undo, tbind, on_graph at 1, get_adjacency.
  simpl. unfold dict_contains. rewrite Hn, bool_decide_eq_true_2 by eauto.
  simpl. unfold on_graph at 1. rewrite (adjacency_getitem_present _ _ _ Hn).
  rewrite bool_decide_eq_true_2 by done. simpl.
  destruct (decide (node ∈ nodes original)) as [Hin|Hout].
  - rewrite bool_decide_eq_true_2 by (by apply elem_of_nodes). simpl.
    unfold adjacency_remove, tbind, on_graph.
    rewrite (adjacency_getitem_present _ _ _ Hn).
    rewrite decide_True by done. simpl. eauto.
  - rewrite bool_decide_eq_false_2 by (by rewrite <- elem_of_nodes). simpl.
    unfold adjacency_delitem, dict_delitem, dict_contains.
    rewrite Hn, bool_decide_eq_true_2 by eauto. simpl. eauto.
Qed.

Lemma helper_run new_edge original g :
  add_edge_helper new_edge original g
  = match check_and_undo new_edge original (O, new_edge.1)
            (exec (add_edge new_edge) g) with
    | (Done _, g1) =>
        match check_and_undo new_edge original (1%nat, new_edge.2) g1 with
        | (Done _, g2) =>
            (if bool_decide (items (adjacency_dict original)
                             = items (adjacency_dict g2))
             then Done tt else Failed AssertionError, g2)
        | (Failed e, g2) => (Failed e, g2)
        | (Unfinished, g2) => (Unfinished, g2)
        end
    | (Failed e, g1) => (Failed e, g1)
    | (Unfinished, g1) => (Unfinished, g1)
    end.
Proof.
  unfold add_edge_helper, tbind at 1, on_graph at 1, exec.
  rewrite add_edge_run. cbn [imap tfor_each fst snd]. unfold tbind at 1.
  unfold tbind at 1.
  destruct (check_and_undo _ _ (O, _) _) as [[[]| |] g1]; [|done..].
  unfold tbind at 1.
  change (((λ (index : nat) (node : Z), (index, node)) ∘ S) 0%nat new_edge.2)
    with (1%nat, new_edge.2).
  destruct (check_and_undo _ _ (1%nat, _) _) as [[[]| |] g2]; [|done..].
  unfold tret, tbind, this_graph, on_other. rewrite eq_run.
  by case_bool_decide.
Qed.

(** X18. The test helper [add_edge_helper], run on a graph equal to
    [original_graph] whose adjacency is symmetric, passes all its
    assertions exactly for an edge that the graph does not have and
    that joins two different nodes, and then leaves the graph equal to
    [original_graph] again; for an edge the graph has already, and for
    a node paired with itself, it ends with [AssertionError]. *)
Theorem add_edge_helper_verdict (original g : Graph) (u v : Z) :
  symmetric original →
  items (adjacency_dict g) = items (adjacency_dict original) →
  (u ≠ v ∧ result (is_edge_in_graph (u, v)) original = Ret false →
   ∃ g', add_edge_helper (u, v) original g = (Done tt, g')
         ∧ result (__eq__ g') original = Ret true)
  ∧ (u = v ∨ result (is_edge_in_graph (u, v)) original = Ret true →
     ∃ g', add_edge_helper (u, v) original g = (Failed AssertionError, g')).
Proof.
  intros Hsym Heq. unfold result. rewrite is_edge_in_graph_run. cbn [fst snd].
  assert (neighborb g u v = neighborb original u v) as Hnb
    by (unfold neighborb; by rewrite Heq).
  rewrite helper_run, exec_add_edge. cbn [fst snd]. rewrite Hnb.
  set (m := items (adjacency_dict original)) in *.
  split.
  - intros [Hne [= Hno]]. rewrite Hno.
    assert (¬ neighbor original u v) as Huv
      by (rewrite <- neighborb_spec, Hno; done).
    assert (¬ neighbor original v u) as Hvu by (intros H; by apply Huv, Hsym).
    destruct (check_and_undo_paired (u, v) original O u (with_edge (u, v) g)
                (default ∅ (m !! u) ∪ {[v]}))
      as (g1 & -> & H1).
    { simpl. rewrite !items_dict_add, Heq. fold m.
      rewrite lookup_insert_ne by done. by rewrite lookup_insert_eq. }
    { simpl. set_solver. }
    destruct (check_and_undo_paired (u, v) original 1 v g1
                (default ∅ (m !! v) ∪ {[u]}))
      as (g2 & -> & H2).
    { rewrite H1. simpl. rewrite !items_dict_add, Heq. fold m.
      case_decide.
      - rewrite lookup_insert_ne by done. rewrite lookup_insert_eq.
        by rewrite lookup_insert_ne by done.
      - rewrite lookup_delete_ne by done. rewrite lookup_insert_eq.
        by rewrite lookup_insert_ne by done. }
    { simpl. set_solver. }
    assert (items (adjacency_dict g2) = m) as Hfinal.
    { rewrite H2, H1. simpl. rewrite !items_dict_add, Heq. fold m.
      rewrite (lookup_insert_ne m u v) by done.
      unfold neighbor in Huv, Hvu. fold m in Huv, Hvu.
      apply map_eq. intros k. unfold nodes. fold m.
      destruct (decide (k = v)) as [->|Hkv];
        [|destruct (decide (k = u)) as [->|Hku]].
      - destruct (decide (v ∈ dom m)) as [Hv|Hv].
        + rewrite lookup_insert_eq. apply elem_of_dom in Hv as [sv Hsv].
          rewrite Hsv. simpl. f_equal.
          assert (u ∉ sv) by (intros ?; apply Hvu; eauto). set_solver.
        + rewrite lookup_delete_eq. symmetry. by apply not_elem_of_dom.
      - assert (∀ X : gmap Z (gset Z),
                  (if decide (v ∈ dom m)
                   then <[v := (default ∅ (m !! v) ∪ {[u]}) ∖ {[u]}]> X
                   else delete v X) !! u = X !! u) as ->.
        { intros X. destruct (decide (v ∈ dom m)).
          - rewrite lookup_insert_ne by congruence. done.
          - rewrite lookup_delete_ne by congruence. done. }
        destruct (decide (u ∈ dom m)) as [Hu|Hu].
        + rewrite lookup_insert_eq. apply elem_of_dom in Hu as [su Hsu].
          rewrite Hsu. simpl. f_equal.
          assert (v ∉ su) by (intros ?; apply Huv; eauto). set_solver.
        + rewrite lookup_delete_eq. symmetry. by apply not_elem_of_dom.
      - destruct (decide (v ∈ dom m)), (decide (u ∈ dom m));
          repeat ((rewrite lookup_insert_ne by congruence)
                  || (rewrite lookup_delete_ne by congruence)); done. }
    exists g2. rewrite bool_decide_eq_true_2 by done. split; [done|].
    rewrite eq_run. simpl. by rewrite bool_decide_eq_true_2.
  - intros Hbad.
    destruct (neighborb original u v) eqn:Hyes.
    + (* the edge is there already *)
      apply neighborb_spec in Hyes as Huv.
      destruct Huv as (su & Hsu & Hv). fold m in Hsu.
      destruct (check_and_undo_paired (u, v) original O u g su)
        as (g1 & -> & H1); [by rewrite Heq|done|].
      rewrite decide_True in H1 by (apply elem_of_dom; eauto).
      simpl in H1. rewrite Heq in H1. fold m in H1.
      destruct (decide (u = v)) as [->|Hne].
      * rewrite (check_and_undo_unpaired (v, v) original 1 v g1 (su ∖ {[v]}));
          [eauto| |simpl; set_solver].
        by rewrite H1, lookup_insert_eq.
      * destruct (Hsym u v) as (sv & Hsv & Hu); [by exists su|]. fold m in Hsv.
        destruct (check_and_undo_paired (u, v) original 1 v g1 sv)
          as (g2 & -> & H2); [|done|].
        { rewrite H1. by rewrite lookup_insert_ne. }
        exists g2. rewrite bool_decide_eq_false_2; [done|].
        rewrite H2, H1. fold m. intros Hc.
        assert (m !! u = Some (su ∖ {[v]})) as Hc'.
        { rewrite Hc at 1. case_decide.
          - rewrite lookup_insert_ne by done. by rewrite lookup_insert_eq.
          - rewrite lookup_delete_ne by done. by rewrite lookup_insert_eq. }
        rewrite Hsu in Hc'. injection Hc' as Hc'. set_solver.
    + (* a new edge from a node to itself *)
      destruct Hbad as [<-|[=]].
      destruct (check_and_undo_paired (u, u) original O u (with_edge (u, u) g)
                  (default ∅ (m !! u) ∪ {[u]} ∪ {[u]}))
        as (g1 & -> & H1).
      { simpl. rewrite !items_dict_add, Heq. fold m.
        by rewrite !lookup_insert_eq. }
      { simpl. set_solver. }
      simpl in H1. case_decide.
      * rewrite (check_and_undo_unpaired (u, u) original 1 u g1
                   ((default ∅ (m !! u) ∪ {[u]} ∪ {[u]}) ∖ {[u]}));
          [eauto| |simpl; set_solver].
        by rewrite H1, lookup_insert_eq.
      * rewrite (check_and_undo_missing (u, u) original 1 u g1); [eauto|].
        by rewrite H1, lookup_delete_eq.
Qed.

Lemma add_edge_helper_verdict_witness :
  symmetric figure1
  ∧ items (adjacency_dict figure1) = items (adjacency_dict figure1)
  ∧ (4 ≠ 9 ∧ result (is_edge_in_graph (4, 9)) figure1 = Ret false →
     ∃ g', add_edge_helper (4, 9) figure1 figure1 = (Done tt, g')
           ∧ result (__eq__ g') figure1 = Ret true)
  ∧ (4 = 9 ∨ result (is_edge_in_graph (4, 9)) figure1 = Ret true →
     ∃ g', add_edge_helper (4, 9) figure1 figure1
           = (Failed AssertionError, g')).
Proof.
  assert (symmetric figure1) as H1 by apply Construct_well_formed.
  assert (items (adjacency_dict figure1) = items (adjacency_dict figure1))
    as H2 by reflexivity.
  split_and!; [exact H1|exact H2|..];
    apply (add_edge_helper_verdict figure1 figure1 4 9 H1 H2).
Defined.

(** ** The edge test and self-loops *)

(** X19. [is_edge_in_graph (u, v)] never raises, also when [u] is not
    in the graph; it returns [True] exactly when [v] is in what
    [__getitem__] returns for [u]; and on a graph with symmetric
    adjacency it gives the same answer for (u,v) and for (v,u). *)
Theorem edge_test_agrees (g : Graph) (u v : Z) :
  (∃ b, result (is_edge_in_graph (u, v)) g = Ret b)
  ∧ (result (is_edge_in_graph (u, v)) g = Ret true ↔ in_Neighbors g u v)
  ∧ (symmetric g →
     result (is_edge_in_graph (u, v)) g = result (is_edge_in_graph (v, u)) g).
Proof.
  unfold result. rewrite !is_edge_in_graph_run. simpl.
  assert (∀ a b, Ret (neighborb g a b) = Ret true ↔ neighbor g a b) as Hb.
  { intros a b. rewrite <- neighborb_spec. split; [by intros [=]|by intros ->]. }
  split_and!; [by eexists|by rewrite Hb, in_Neighbors_neighbor|].
  intros Hsym. f_equal.
  destruct (neighborb g u v) eqn:E1, (neighborb g v u) eqn:E2; try done.
  - apply neighborb_spec, Hsym, neighborb_spec in E1. congruence.
  - apply neighborb_spec, Hsym, neighborb_spec in E2. congruence.
Qed.

Lemma walk_without_loop g a n x y :
  walk (exec (add_edge (a, a)) g) n x y →
  symmetric g →
  ∃ m, (m ≤ n)%nat ∧ walk g m x y.
Proof.
  intros Hw Hsym. induction Hw as [x|n x b y Hxb _ IH].
  - exists 0%nat. split; [done|constructor].
  - destruct IH as (m & Hm & Hw).
    apply (add_edge_neighbor_iff (a, a)) in Hxb; [|done]. simpl in Hxb.
    destruct Hxb as [Hxb|[[-> ->]|[-> ->]]].
    + exists (S m). split; [lia|]. by eapply walk_edge.
    + exists m. split; [lia|done].
    + exists m. split; [lia|done].
Qed.

Section Loops.

Variable set_iter : gset Z → list Z.
Hypothesis set_iter_perm : ∀ s, set_iter s ≡ₚ elements s.

(** X20. A self-loop changes no distance. On a graph built by the
    constructor and the mutators, after [add_edge (a, a)] the call
    [distance] returns, for every two nodes the graph had, what it
    returned before. *)
Theorem self_loop_keeps_distances
    (g : Graph) (a x y : Z) (fuel fuel' : nat) :
  let g' := exec (add_edge (a, a)) g in
  well_formed g → x ∈ nodes g → y ∈ nodes g →
  (size (nodes g) ≤ fuel)%nat → (size (nodes g') ≤ fuel')%nat →
  result (distance set_iter fuel' x y) g'
  = result (distance set_iter fuel x y) g.
Proof.
  intros g' Hwf Hx Hy Hfuel Hfuel'.
  assert (well_formed g') as [_ Hinv'] by (by apply add_edge_well_formed).
  destruct Hwf as [_ Hinv].
  assert (∀ n, n ∈ nodes g → n ∈ nodes g') as Hnodes.
  { intros n Hn. apply (apply_mutation_nodes_mono (AddEdge (a, a)) g n Hn). }
  assert (∀ n, walk g n x y → walk g' n x y) as Hmono.
  { intros n. apply walk_neighbor_mono. intros ? ?.
    apply add_edge_neighbor_mono. }
  unfold result.
  destruct (distance_spec set_iter set_iter_perm fuel x y g Hinv Hx Hy Hfuel)
    as (d & -> & H).
  destruct (distance_spec set_iter set_iter_perm fuel' x y g' Hinv'
              (Hnodes _ Hx) (Hnodes _ Hy) Hfuel') as (d' & -> & H').
  simpl. f_equal.
  destruct H as [(j & -> & Hw & Hmin)|[-> Hun]],
           H' as [(j' & -> & Hw' & Hmin')|[-> Hun']].
  - destruct (walk_without_loop g a j' x y Hw' (proj1 Hinv)) as (m & Hm & Hwm).
    specialize (Hmin _ Hwm). specialize (Hmin' _ (Hmono _ Hw)). lia.
  - destruct Hun'. exists j. by apply Hmono.
  - destruct (walk_without_loop g a j' x y Hw' (proj1 Hinv)) as (m & _ & Hwm).
    destruct Hun. by exists m.
  - done.
Qed.

End Loops.

Lemma self_loop_keeps_distances_witness :
  (∀ s : gset Z, elements s ≡ₚ elements s)
  ∧ well_formed figure1
  ∧ 6 ∈ nodes figure1
  ∧ 1 ∈ nodes figure1
  ∧ (size (nodes figure1) ≤ 6)%nat
  ∧ (size (nodes (exec (add_edge (4, 4)%Z) figure1)) ≤ 6)%nat
  ∧ result (distance elements 6 6 1) (exec (add_edge (4, 4)) figure1)
    = result (distance elements 6 6 1) figure1.
Proof.
  assert (∀ s : gset Z, elements s ≡ₚ elements s) as H1 by reflexivity.
  assert (well_formed figure1) as H2 by apply Construct_well_formed.
  assert (6 ∈ nodes figure1) as H3 by (rewrite figure1_nodes; set_solver).
  assert (1 ∈ nodes figure1) as H4 by (rewrite figure1_nodes; set_solver).
  assert (size (nodes figure1) ≤ 6)%nat as H5 by (vm_compute; lia).
  assert (size (nodes (exec (add_edge (4, 4)%Z) figure1)) ≤ 6)%nat as H6
    by (vm_compute; lia).
  split_and!; [exact H1|exact H2|exact H3|exact H4|exact H5|exact H6|].
  exact (self_loop_keeps_distances elements H1 figure1 4 6 1 6%nat 6%nat
           H2 H3 H4 H5 H6).
Defined.
